(** * Interaction loop and tabular SARSA(lambda): a shallow embedding

    Two source files are embedded:
    - [PyPi/core/core.py], class [Core]: the agent/environment interaction
      loop ([learn], [evaluate], [_move_episodes], [_move_samples], [_step],
      [reset]);
    - [mushroom_rl/algorithms/value/td/sarsa_lambda.py], class
      [SARSALambda]: the per-transition update and the episode start.

    The environment, the agent seen by the loop, the callbacks, the policy
    and the learning-rate schedule are external collaborators: they appear as
    records of capabilities acting on their own private state.  Every call
    the loop makes to a collaborator is appended to a chronological log of
    events, so that statements about the order of interactions are statements
    about that log.  Diagnostic logging and the progress bar do not influence
    the computation and are left out.

    Modelling conventions:
    - Python integers ([n_iterations], [how_many], the counters, the
      horizon) are [Z]; a loop over [xrange(n)] or [while i < n] from [0]
      runs [Z.to_nat n] times;
    - a dataset is the list of its transitions in chronological order;
      [dataset.append] and [+=] are list concatenations, and the agent and
      the callbacks read the dataset they are handed without changing it;
    - [np.array(next_state)] is the value [next_state];
    - an exception is a result of its own kind: [Raise] for a failed
      [assert] of the loop, [None] for an [IndexError] of the algorithm. *)

From Stdlib Require Import ZArith Lia.
From stdpp Require Import base tactics option list strings.

Local Open Scope Z_scope.

(** ** The interaction loop ([PyPi/core/core.py]) *)

Module Core.

Section Loop.
(** States, actions and rewards are whatever the environment exchanges;
    [Env], [Ag] and [Cb] are the private states of the environment, of the
    agent and of the callbacks. *)
Context {St Act Rew Env Ag Cb : Type}.

(** A transition is the 6-tuple
    [(state, action, reward, next_state, absorbing, last)]. *)
Record sample : Type := Sample {
  s_state : St;
  s_action : Act;
  s_reward : Rew;
  s_next_state : St;
  s_absorbing : bool;
  s_last : bool
}.

Abbreviation dataset := (list sample).

(** Capabilities of the environment: [mdp.reset(state=None)],
    [mdp.step(action)] (the info component of its result is discarded by
    the loop), [mdp.render()] and the attribute [mdp.horizon], an
    integer. *)
Record MDP : Type := {
  mdp_reset : option St -> Env -> St * Env;
  mdp_step : Act -> Env -> St * Rew * bool * Env;
  mdp_render : Env -> Env;
  mdp_horizon : Z
}.

(** Capabilities of the agent used by the loop: [agent.initialize(info)],
    [agent.draw_action(state)] and [agent.fit(dataset, n_fit_steps)]. *)
Record Agent : Type := {
  initialize : Ag -> Ag;
  draw_action : St -> Ag -> Act * Ag;
  fit : dataset -> Z -> Ag -> Ag
}.

(** A callback is a unary procedure on a dataset. *)
Definition callback : Type := dataset -> Cb -> Cb.

(** The calls the loop makes to its collaborators. *)
Inductive event : Type :=
| EvReset (init : option St)
| EvDrawAction (s : St)
| EvStep (a : Act)
| EvRender
| EvFit (d : dataset) (n_fit_steps : Z)
| EvCallback (k : nat) (d : dataset).

(** The attributes of a [Core] object, the private states of the objects
    it references, and the log of interactions. *)
Record core : Type := MkCore {
  agent : Ag;
  mdp : Env;
  callbacks : list callback;
  cb_world : Cb;
  _state : St;
  _total_steps : Z;
  _episode_steps : Z;
  iteration : option Z;
  events : list event
}.

Inductive exn : Type := AssertionError.

(** Result of a public operation: normal return with the final object, or
    an exception together with the object as it was when raised. *)
Inductive outcome (R : Type) : Type :=
| Ok (c : core) (r : R)
| Raise (e : exn) (c : core).
Global Arguments Ok {R} c r.
Global Arguments Raise {R} e c.

(** The object a public operation leaves behind. *)
Definition final {R : Type} (o : outcome R) : core :=
  match o with
  | Ok c _ => c
  | Raise _ c => c
  end.

Variable M : MDP.
Variable A : Agent.

(** [self._state = self.mdp.reset(init)] *)
Definition env_reset (init : option St) (c : core) : core :=
  let '(s, env) := mdp_reset M init (mdp c) in
  MkCore (agent c) env (callbacks c) (cb_world c) s
         (_total_steps c) (_episode_steps c) (iteration c)
         (events c ++ [EvReset init]).

(** [self._episode_steps = 0] *)
Definition zero_episode_steps (c : core) : core :=
  MkCore (agent c) (mdp c) (callbacks c) (cb_world c) (_state c)
         (_total_steps c) 0 (iteration c) (events c).

(** [Core.__init__] *)
Definition __init__ (ag : Ag) (env : Env) (cbs : list callback) (w : Cb)
    : core :=
  let ag := initialize A ag in
  let '(s, env) := mdp_reset M None env in
  MkCore ag env cbs w s 0 0 None [EvReset None].

(** [Core._step]: returns [last], the object after the step and the
    dataset after the append. *)
Definition _step (c : core) (d : dataset) (render : bool)
    : bool * core * dataset :=
  let '(action, ag) := draw_action A (_state c) (agent c) in
  let '(next_state, reward, absorbing, env) := mdp_step M action (mdp c) in
  let episode_steps := _episode_steps c + 1 in
  let env := if render then mdp_render M env else env in
  let last := negb ((episode_steps <? mdp_horizon M) && negb absorbing) in
  let smp := Sample (_state c) action reward next_state absorbing last in
  (last,
   MkCore ag env (callbacks c) (cb_world c) next_state
          (_total_steps c) episode_steps (iteration c)
          (events c ++ [EvDrawAction (_state c); EvStep action]
                    ++ (if render then [EvRender] else [])),
   d ++ [smp]).

(** The inner loop of [_move_episodes],
    [while not self._step(dataset, render): continue].
    [None] stands for fuel exhausted before a step reported [last]. *)
Fixpoint episode_loop (fuel : nat) (c : core) (d : dataset) (render : bool)
    : option (core * dataset) :=
  match fuel with
  | O => None
  | S fuel' =>
      let '(last, c', d') := _step c d render in
      if last then Some (c', d') else episode_loop fuel' c' d' render
  end.

(** Every step increments [_episode_steps], and a step whose incremented
    counter reaches the horizon reports [last]; this many steps always
    suffice ([CoreFacts.episode_loop_enough]). *)
Definition episode_fuel (c : core) : nat :=
  S (Z.to_nat (mdp_horizon M - _episode_steps c)).

(** The inner loop on that fuel.  It always returns
    ([CoreFacts.run_episode_spec]), so the default is never taken. *)
Definition run_episode (c : core) (d : dataset) (render : bool)
    : core * dataset :=
  default (c, d) (episode_loop (episode_fuel c) c d render).

(** The outer loop of [_move_episodes], [n] iterations left. *)
Fixpoint move_episodes_loop (n : nat) (c : core) (d : dataset)
    (render : bool) : core * dataset :=
  match n with
  | O => (c, d)
  | S n' =>
      let '(c1, d1) := run_episode c d render in
      let c2 := zero_episode_steps (env_reset None c1) in
      move_episodes_loop n' c2 d1 render
  end.

(** [Core._move_episodes] *)
Definition _move_episodes (how_many : Z) (render : bool) (c : core)
    : core * dataset :=
  move_episodes_loop (Z.to_nat how_many) (zero_episode_steps c) [] render.

(** The loop of [_move_samples], [n] iterations left. *)
Fixpoint move_samples_loop (n : nat) (c : core) (d : dataset)
    (render : bool) : core * dataset :=
  match n with
  | O => (c, d)
  | S n' =>
      let '(last, c1, d1) := _step c d render in
      let c2 := if last then zero_episode_steps (env_reset None c1)
                else c1 in
      move_samples_loop n' c2 d1 render
  end.

(** [Core._move_samples] *)
Definition _move_samples (how_many : Z) (render : bool) (c : core)
    : core * dataset :=
  move_samples_loop (Z.to_nat how_many) c [] render.

(** [self.agent.fit(dataset, n_fit_steps)] *)
Definition call_fit (d : dataset) (n_fit_steps : Z) (c : core) : core :=
  MkCore (fit A d n_fit_steps (agent c)) (mdp c) (callbacks c)
         (cb_world c) (_state c) (_total_steps c) (_episode_steps c)
         (iteration c) (events c ++ [EvFit d n_fit_steps]).

(** [for c in self.callbacks: c(dataset)]; [k] is the registration index
    of the first callback of [cbs]. *)
Fixpoint run_callbacks (k : nat) (cbs : list callback) (d : dataset)
    (w : Cb) : Cb * list event :=
  match cbs with
  | [] => (w, [])
  | cb :: cbs' =>
      let '(w', evs) := run_callbacks (S k) cbs' d (cb d w) in
      (w', EvCallback k d :: evs)
  end.

Definition call_callbacks (d : dataset) (c : core) : core :=
  let '(w, evs) := run_callbacks 0 (callbacks c) d (cb_world c) in
  MkCore (agent c) (mdp c) (callbacks c) w (_state c)
         (_total_steps c) (_episode_steps c) (iteration c)
         (events c ++ evs).

Definition set_iteration (i : Z) (c : core) : core :=
  MkCore (agent c) (mdp c) (callbacks c) (cb_world c) (_state c)
         (_total_steps c) (_episode_steps c) (Some i) (events c).

(** [self._total_steps += 1] *)
Definition incr_total_steps (c : core) : core :=
  MkCore (agent c) (mdp c) (callbacks c) (cb_world c) (_state c)
         (_total_steps c + 1) (_episode_steps c) (iteration c) (events c).

(** Body of the [for] loop of [learn] in the branch
    [iterate_over == 'samples']. *)
Definition learn_samples_body (how_many n_fit_steps : Z) (render : bool)
    (i : Z) (c : core) : core :=
  let c := set_iteration i c in
  let '(c, d) := _move_samples how_many render c in
  let c := call_fit d n_fit_steps c in
  let c := call_callbacks d c in
  incr_total_steps c.

(** Body of the [for] loop of [learn] in the other branch. *)
Definition learn_episodes_body (how_many n_fit_steps : Z) (render : bool)
    (i : Z) (c : core) : core :=
  let c := set_iteration i c in
  let '(c, d) := _move_episodes how_many render c in
  let c := call_fit d n_fit_steps c in
  call_callbacks d c.

(** [for i in xrange(i0, i0 + n): body], threading a value of type [X]. *)
Fixpoint for_xrange {X : Type} (i0 : Z) (n : nat) (body : Z -> X -> X)
    (x : X) : X :=
  match n with
  | O => x
  | S n' => for_xrange (i0 + 1) n' body (body i0 x)
  end.

(** [Core.learn] *)
Definition learn (n_iterations how_many n_fit_steps : Z)
    (iterate_over : string) (render quiet : bool) (c : core)
    : outcome unit :=
  if negb (String.eqb iterate_over "samples"%string
           || String.eqb iterate_over "episodes"%string)
  then Raise AssertionError c
  else if String.eqb iterate_over "samples"%string
  then Ok (for_xrange 0 (Z.to_nat n_iterations)
             (learn_samples_body how_many n_fit_steps render) c) tt
  else Ok (for_xrange 0 (Z.to_nat n_iterations)
             (learn_episodes_body how_many n_fit_steps render) c) tt.

(** One round of the first loop of [evaluate]:
    [self._state = self.mdp.reset(initial_states[i, :])] then
    [dataset += self._move_episodes(1, render=render)]. *)
Definition evaluate_from (render : bool) (init : option St)
    (cd : core * dataset) : core * dataset :=
  let '(c, d) := cd in
  let '(c', d') := _move_episodes 1 render (env_reset init c) in
  (c', d ++ d').

(** One round of the last loop of [evaluate]:
    [dataset += self._move_samples(1, render=render)]. *)
Definition evaluate_sample (render : bool) (cd : core * dataset)
    : core * dataset :=
  let '(c, d) := cd in
  let '(c', d') := _move_samples 1 render c in
  (c', d ++ d').

(** [Core.evaluate]; [initial_states] is the sequence of its rows. *)
Definition evaluate (how_many : Z) (iterate_over : string)
    (initial_states : option (list St)) (render quiet : bool) (c : core)
    : outcome dataset :=
  match initial_states with
  | Some inits =>
      if negb (String.eqb iterate_over "episodes"%string)
      then Raise AssertionError c
      else
        let '(c', d) :=
          fold_left (fun cd s => evaluate_from render (Some s) cd)
                    inits (c, []) in
        Ok c' d
  | None =>
      if String.eqb iterate_over "episodes"%string
      then
        let '(c', d) :=
          for_xrange 0 (Z.to_nat how_many)
                     (fun _ => evaluate_from render None) (c, []) in
        Ok c' d
      else
        let '(c', d) :=
          for_xrange 0 (Z.to_nat how_many)
                     (fun _ => evaluate_sample render)
                     (env_reset None c, []) in
        Ok c' d
  end.

(** [Core.reset] *)
Definition reset (c : core) : core :=
  let '(s, env) := mdp_reset M None (mdp c) in
  MkCore (agent c) env (callbacks c) (cb_world c) s 0 0 (iteration c)
         (events c ++ [EvReset None]).

(** *** Vocabulary of the statements about the loop *)

(** The parts of the object that collecting data never touches. *)
Definition same_frame (c c' : core) : Prop :=
  callbacks c' = callbacks c /\ cb_world c' = cb_world c /\
  _total_steps c' = _total_steps c /\ iteration c' = iteration c.

(** A complete episode: every transition but the final one has
    [last = false], the final one has [last = true]. *)
Definition whole_episode (ep : dataset) : Prop :=
  exists init t,
    ep = init ++ [t] /\ s_last t = true
    /\ Forall (fun x => s_last x = false) init.

(** A run of consecutive steps from state [s] to state [s']: each
    transition starts where the loop stands and the next one starts in
    its [next_state]. *)
Fixpoint follows (s : St) (ep : dataset) (s' : St) : Prop :=
  match ep with
  | [] => s = s'
  | x :: ep' => s_state x = s /\ follows (s_next_state x) ep' s'
  end.

(** Consecutive elements of a list are related by [P]. *)
Definition adjacent {X : Type} (P : X -> X -> Prop) (l : list X) : Prop :=
  forall i x y, l !! i = Some x -> l !! S i = Some y -> P x y.

(** Number of transitions of a dataset that close an episode. *)
Definition count_last (d : dataset) : nat :=
  length (filter (fun x => s_last x = true) d).

(** The interactions of data collection: everything but fitting and
    callbacks. *)
Definition collecting (ev : event) : Prop :=
  match ev with
  | EvFit _ _ | EvCallback _ _ => False
  | _ => True
  end.

(** [c'] is [c] after some data collection: same callbacks, callback
    state, [_total_steps] and loop variable, and a log extended by
    collecting interactions only. *)
Definition collected_from (c c' : core) : Prop :=
  same_frame c c'
  /\ exists evs, events c' = events c ++ evs /\ Forall collecting evs.

(** Kinds of interaction, for counting them in a log. *)
Definition is_reset (ev : event) : bool :=
  match ev with EvReset _ => true | _ => false end.

Definition is_draw (ev : event) : bool :=
  match ev with EvDrawAction _ => true | _ => false end.

Definition is_step (ev : event) : bool :=
  match ev with EvStep _ => true | _ => false end.

Definition is_render (ev : event) : bool :=
  match ev with EvRender => true | _ => false end.

Definition count_events (p : event -> bool) (evs : list event) : nat :=
  length (filter (fun ev => p ev = true) evs).

(** From [c] to [c'] the log grew by [n_steps] action draws, [n_steps]
    environment steps, [n_resets] environment resets, a rendering per step
    when [render] is set and none otherwise. *)
Definition tally (c c' : core) (n_steps n_resets : nat) (render : bool)
    : Prop :=
  exists evs,
    events c' = events c ++ evs
    /\ count_events is_draw evs = n_steps
    /\ count_events is_step evs = n_steps
    /\ count_events is_reset evs = n_resets
    /\ count_events is_render evs = (if render then n_steps else 0%nat).

(** The flags of an episode that started with [_episode_steps = 0]: the
    transition at position [i] is absorbing as the environment said at some
    step, and is last when absorbing or when [i + 1] reaches the horizon. *)
Definition flagged_episode (ep : dataset) : Prop :=
  forall (i : nat) smp,
    ep !! i = Some smp ->
    s_last smp = s_absorbing smp || (mdp_horizon M <=? Z.of_nat i + 1)
    /\ exists a env, s_absorbing smp = snd (fst (mdp_step M a env)).
End Loop.

Global Arguments sample : clear implicits.
Global Arguments MDP : clear implicits.
Global Arguments Agent : clear implicits.
Global Arguments core : clear implicits.
Global Arguments event : clear implicits.

End Core.

(** ** Arithmetic of table entries

    Table and trace entries, rewards, the discount factor, the trace
    coefficient and the step sizes are Python floats.  The algorithm only
    combines them with [+], [-] and [*] and the literals [0.] and [1.0], so
    the embedding is parametric in the number type and these operations; a
    statement that needs an algebraic law names it as a hypothesis. *)

Class Arith (F : Type) : Type := {
  fzero : F;
  fone : F;
  fadd : F -> F -> F;
  fsub : F -> F -> F;
  fmul : F -> F -> F;
  fle : F -> F -> Prop
}.

(** The laws under which adding a multiple of a one-hot array changes a
    single entry. *)
Class OneHotLaws (F : Type) `{Arith F} : Prop := {
  fadd_0_l : forall x : F, fadd fzero x = x;
  fadd_0_r : forall x : F, fadd x fzero = x;
  fmul_0_r : forall x : F, fmul x fzero = fzero;
  fmul_1_r : forall x : F, fmul x fone = x
}.

(** The closed unit interval and the laws that keep products inside it. *)
Definition in_unit {F : Type} `{Arith F} (x : F) : Prop :=
  fle fzero x /\ fle x fone.

Class UnitLaws (F : Type) `{Arith F} : Prop := {
  in_unit_zero : in_unit fzero;
  in_unit_one : in_unit fone;
  in_unit_mul : forall x y : F, in_unit x -> in_unit y -> in_unit (fmul x y)
}.

(** ** Two-dimensional arrays

    A numpy array of shape [(n_states, n_actions)] is a list of rows.
    Indices are the non-negative integers a finite MDP uses for its states
    and actions; an index outside the array raises [IndexError], rendered
    as [None]. *)

Abbreviation array F := (list (list F)) (only parsing).

Module Array2.
Section Array2.
Context {F : Type} `{Arith F}.

(** Modelled from the spec: the indexed read [t[s, a]] of a [Table] (the
    class is not among the sources), "mapping (state,action) to float,
    fixed shape". *)
Definition getitem (t : array F) (s a : nat) : option F :=
  row ← t !! s; row !! a.

(** Modelled from the spec: the indexed write [t[s, a] = v]; the shape
    never changes. *)
Definition setitem (t : array F) (s a : nat) (v : F) : option (array F) :=
  row ← t !! s; _ ← row !! a; Some (<[s := <[a := v]> row]> t).

(** Modelled from the spec: a store "constructed zero-initialized for a
    given state/action space size", [np.zeros((n, m))]. *)
Definition zeros (n m : nat) : array F := replicate n (replicate m fzero).

(** numpy's [c * t] for a scalar [c] *)
Definition scalar_mul (c : F) (t : array F) : array F :=
  (fun row : list F => fmul c <$> row) <$> t.

(** numpy's [t += u] for arrays of one shape *)
Definition iadd (t u : array F) : array F := zip_with (zip_with fadd) t u.

(** numpy's [t *= k] for a scalar [k] *)
Definition imul (t : array F) (k : F) : array F :=
  (fun row : list F => (fun x => fmul x k) <$> row) <$> t.

(** [t.shape == (n, m)] *)
Definition has_shape (n m : nat) (t : array F) : Prop :=
  length t = n /\ Forall (fun row => length row = m) t.

(** Every entry of [t] satisfies [P]. *)
Definition all_entries (P : F -> Prop) (t : array F) : Prop :=
  Forall (Forall P) t.

(** The array of the shape of [t] holding [1.0] at [(s, a)] and [0.]
    elsewhere. *)
Definition one_hot (t : array F) (s a : nat) : array F :=
  imap (fun i row =>
          imap (fun j _ =>
                  if bool_decide (i = s /\ j = a) then fone else fzero)
               row) t.
End Array2.
End Array2.

(** ** SARSA(lambda) ([mushroom_rl/algorithms/value/td/sarsa_lambda.py]) *)

Module SARSALambda.
Import Array2.

Section Algorithm.
Context {F : Type} `{Arith F}.
(** Private states of the policy and of the learning-rate schedule. *)
Context {Pol LR : Type}.

(** The trace modes of [EligibilityTrace(shape, name)]. *)
Inductive trace_mode : Type := Replacing | Accumulating.

(** Modelled from the spec: [EligibilityTrace.reset], which zeroes all
    entries (the class [EligibilityTrace] is not among the sources). *)
Definition trace_reset (e : array F) : array F :=
  (fun row : list F => (fun _ => fzero) <$> row) <$> e.

(** Modelled from the spec: [EligibilityTrace.update(state, action)].  The
    replacing variant sets the entry for [(state, action)] to [1.0] and
    leaves all other entries unchanged; the accumulating variant adds
    instead of overwriting. *)
Definition trace_update (mode : trace_mode) (e : array F) (s a : nat)
    : option (array F) :=
  match mode with
  | Replacing => setitem e s a fone
  | Accumulating => x ← getitem e s a; setitem e s a (fadd x fone)
  end.

(** What [SARSALambda] inherits from [TD] and [Agent], which are not among
    the sources: drawing an action from the policy (which may consult the
    table), the step size [self.alpha(state, action)], and the inherited
    part of [episode_start]. *)
Record TD : Type := {
  td_draw_action : array F -> nat -> Pol -> nat * Pol;
  td_alpha : nat -> nat -> LR -> F * LR;
  td_episode_start : Pol -> Pol
}.

(** The attributes of a [SARSALambda] object: [Q.table], [e.table], the
    trace mode, [_lambda], [mdp_info.gamma], [next_action], and the
    states of the policy and of the learning rate. *)
Record agent : Type := MkAgent {
  Q : array F;
  e : array F;
  mode : trace_mode;
  _lambda : F;
  gamma : F;
  next_action : option nat;
  policy : Pol;
  learning_rate : LR
}.

Variable T : TD.

(** [SARSALambda.__init__]; Modelled from the spec: a [Table] and an
    [EligibilityTrace] are constructed zero-initialized with the shape
    [mdp_info.size = (n_states, n_actions)]. *)
Definition __init__ (n_states n_actions : nat) (mdp_gamma : F)
    (pol : Pol) (lr : LR) (lambda_coeff : F) (trace : trace_mode)
    : agent :=
  MkAgent (zeros n_states n_actions) (zeros n_states n_actions) trace
          lambda_coeff mdp_gamma None pol lr.

(** [delta = reward + self.mdp_info.gamma * q_next - q_current] *)
Definition td_error (reward g q_next q_current : F) : F :=
  fsub (fadd reward (fmul g q_next)) q_current.

(** [SARSALambda._update]; [None] is an [IndexError]. *)
Definition _update (ag : agent) (state action : nat) (reward : F)
    (next_state : nat) (absorbing : bool) : option agent :=
  q_current ← getitem (Q ag) state action;
  let '(na, pol) := td_draw_action T (Q ag) next_state (policy ag) in
  q_next ← (if negb absorbing then getitem (Q ag) next_state na
            else Some fzero);
  let delta := td_error reward (gamma ag) q_next q_current in
  e1 ← trace_update (mode ag) (e ag) state action;
  let '(al, lr) := td_alpha T state action (learning_rate ag) in
  let Q' := iadd (Q ag) (scalar_mul (fmul al delta) e1) in
  let e' := imul e1 (fmul (gamma ag) (_lambda ag)) in
  Some (MkAgent Q' e' (mode ag) (_lambda ag) (gamma ag) (Some na) pol lr).

(** [SARSALambda.episode_start] *)
Definition episode_start (ag : agent) : agent :=
  MkAgent (Q ag) (trace_reset (e ag)) (mode ag) (_lambda ag) (gamma ag)
          (next_action ag) (td_episode_start T (policy ag))
          (learning_rate ag).

(** Modelled from the spec: the inherited [fit] hands the fields of a
    transition to [_update] ("Agent.fit invokes the TD algorithm per
    transition"); the field [last] is not among the arguments of
    [_update]. *)
Definition fit_sample (ag : agent) (smp : Core.sample nat nat F)
    : option agent :=
  _update ag (Core.s_state smp) (Core.s_action smp) (Core.s_reward smp)
          (Core.s_next_state smp) (Core.s_absorbing smp).

(** The values [_update] computes on the way, read off the object before
    the call: the action drawn at [next_state], the bootstrap value, and
    the step size. *)
Definition drawn_action (ag : agent) (next_state : nat) : nat :=
  fst (td_draw_action T (Q ag) next_state (policy ag)).

Definition step_size (ag : agent) (state action : nat) : F :=
  fst (td_alpha T state action (learning_rate ag)).

(** [q_next] as line 37 computes it from [absorbing]. *)
Definition bootstrap (ag : agent) (next_state : nat) (absorbing : bool)
    : option F :=
  if negb absorbing
  then getitem (Q ag) next_state (drawn_action ag next_state)
  else Some fzero.

(** The objects a replacing-trace agent can be in from the start of an
    episode on, with [gamma] and [_lambda] in the unit interval. *)
Inductive in_episode : agent -> Prop :=
| in_episode_start ag :
    mode ag = Replacing -> in_unit (gamma ag) -> in_unit (_lambda ag) ->
    in_episode (episode_start ag)
| in_episode_update ag s a r s' absorbing ag' :
    in_episode ag -> _update ag s a r s' absorbing = Some ag' ->
    in_episode ag'.

(** The calls an agent receives while it learns. *)
Inductive call : Type :=
| EpisodeStart
| Update (state action : nat) (reward : F) (next_state : nat)
         (absorbing : bool).

(** The agent driven through a sequence of calls; an [IndexError] of an
    update ends the run. *)
Fixpoint run_calls (cs : list call) (ag : agent) : option agent :=
  match cs with
  | [] => Some ag
  | EpisodeStart :: cs' => run_calls cs' (episode_start ag)
  | Update s a r s' absorbing :: cs' =>
      ag' ← _update ag s a r s' absorbing; run_calls cs' ag'
  end.

(** Spec-worded one-step SARSA: add
    [alpha(s,a) * (r + gamma*Table[s',a''] - Table[s,a])] at entry
    [(s, a)] only, where [a''] is the action drawn at [s']. *)
Definition sarsa_one_step (ag : agent) (s a : nat) (r : F) (s' : nat)
    : option (array F) :=
  q ← getitem (Q ag) s a;
  q' ← getitem (Q ag) s' (drawn_action ag s');
  setitem (Q ag) s a
    (fadd q (fmul (step_size ag s a) (td_error r (gamma ag) q' q))).
End Algorithm.

Global Arguments TD F Pol LR : clear implicits.
Global Arguments agent F Pol LR : clear implicits.

End SARSALambda.

(** ** Concrete collaborators

    A small environment, agent and policy on which the definitions above
    run: a corridor whose positions are numbered from [0], walked one
    position per step. *)

Module Toy.

#[export] Instance Z_arith : Arith Z := {|
  fzero := 0; fone := 1;
  fadd := Z.add; fsub := Z.sub; fmul := Z.mul;
  fle := Z.le
|}.

(** The environment state is the current position; a step moves to the
    next position, pays the action as reward, and is absorbing exactly on
    reaching [goal] (never, when there is no goal). *)
Definition corridor (horizon : Z) (goal : option nat)
    : Core.MDP nat nat Z nat := {|
  Core.mdp_reset := fun init _ => (default 0%nat init, default 0%nat init);
  Core.mdp_step := fun a pos =>
    (S pos, Z.of_nat a, bool_decide (goal = Some (S pos)), S pos);
  Core.mdp_render := fun pos => pos;
  Core.mdp_horizon := horizon
|}.

(** An agent that acts by the parity of the state and counts the
    transitions it was fitted on. *)
Definition walker : Core.Agent nat nat Z nat := {|
  Core.initialize := fun g => g;
  Core.draw_action := fun s g => (Nat.modulo s 2, g);
  Core.fit := fun d _ g => (g + length d)%nat
|}.

(** Callbacks that sign a guest book with their name and the size of the
    dataset they were handed. *)
Definition signer (name : nat)
    : @Core.callback nat nat Z (list (nat * nat)) :=
  fun d book => book ++ [(name, length d)].

Definition start (horizon : Z) (goal : option nat)
    : Core.core nat nat Z nat nat (list (nat * nat)) :=
  Core.__init__ (corridor horizon goal) walker 0%nat 0%nat
                [signer 7; signer 9] [].

(** The loop after [learn(1, 2, 1, 'samples')] from a fresh start: two
    steps into an episode. *)
Definition two_steps_in (horizon : Z)
    : Core.core nat nat Z nat nat (list (nat * nat)) :=
  Core.final
    (Core.learn (corridor horizon None) walker 1 2 1 "samples" false false
                (start horizon None)).

(** A policy that always draws action [0], a constant step size [1]. *)
Definition greedy0 : SARSALambda.TD Z unit unit := {|
  SARSALambda.td_draw_action := fun _ _ pol => (0%nat, pol);
  SARSALambda.td_alpha := fun _ _ lr => (1, lr);
  SARSALambda.td_episode_start := fun pol => pol
|}.

(** A 2-state, 2-action learner with [gamma = 1] and [lambda = 0]. *)
Definition learner0 : SARSALambda.agent Z unit unit :=
  SARSALambda.episode_start greedy0
    (SARSALambda.__init__ 2 2 1 tt tt 0 SARSALambda.Replacing).

(** The same learner with [lambda = 1], after the transition
    [(0, 1, 5, 1, absorbing = False)] of its first episode. *)
Definition tracer0 : SARSALambda.agent Z unit unit :=
  SARSALambda.episode_start greedy0
    (SARSALambda.__init__ 2 2 1 tt tt 1 SARSALambda.Replacing).

Definition tracer1 : SARSALambda.agent Z unit unit :=
  default tracer0 (SARSALambda._update greedy0 tracer0 0 1 5 1 false).


(** A learner whose table already holds values, at the start of an
    episode, with [gamma = 1] and [lambda = 1]. *)
Definition seasoned : SARSALambda.agent Z unit unit :=
  SARSALambda.MkAgent [[3; 0]; [7; 0]] [[0; 0]; [0; 0]]
    SARSALambda.Replacing 1 1 None tt tt.

End Toy.

(** * Properties of the interaction loop *)

Module CoreFacts.
Import Core.

Section Facts.
Context {St Act Rew Env Ag Cb : Type}.
Variable M : MDP St Act Rew Env.
Variable A : Agent St Act Rew Ag.

Abbreviation core := (core St Act Rew Env Ag Cb).
Abbreviation sample := (sample St Act Rew).
Abbreviation dataset := (list sample).

Lemma same_frame_refl (c : core) : same_frame c c.
Proof. by repeat split. Qed.

Lemma same_frame_trans (c1 c2 c3 : core) :
  same_frame c1 c2 -> same_frame c2 c3 -> same_frame c1 c3.
Proof.
  intros (?&?&?&?) (?&?&?&?). repeat split; congruence.
Qed.

Lemma same_frame_env_reset init (c : core) :
  same_frame c (env_reset M init c).
Proof. unfold env_reset. destruct (mdp_reset _ _ _). by repeat split. Qed.

Lemma same_frame_zero (c : core) : same_frame c (zero_episode_steps c).
Proof. by repeat split. Qed.

(** One step, statement by statement. *)
Lemma _step_eq (c : core) (d : dataset) render :
  exists smp c',
    _step M A c d render = (s_last smp, c', d ++ [smp])
    /\ s_state smp = _state c
    /\ s_action smp = fst (draw_action A (_state c) (agent c))
    /\ s_absorbing smp = snd (fst (mdp_step M (s_action smp) (mdp c)))
    /\ _state c' = s_next_state smp
    /\ _episode_steps c' = _episode_steps c + 1
    /\ s_last smp
       = s_absorbing smp || (mdp_horizon M <=? _episode_steps c')
    /\ same_frame c c'.
Proof.
  unfold _step.
  destruct (draw_action A (_state c) (agent c)) as [a ag] eqn:Ha.
  destruct (mdp_step M a (mdp c)) as [[[s' r] ab] env] eqn:Hs.
  eexists (Sample _ _ _ _ _ _), _. split; [reflexivity|]. cbn.
  rewrite Hs. cbn. repeat split.
  rewrite negb_andb, negb_involutive, orb_comm. f_equal.
  rewrite Z.leb_antisym. reflexivity.
Qed.

Lemma episode_loop_S fuel (c : core) (d : dataset) render :
  episode_loop M A (S fuel) c d render
  = let '(last, c', d') := _step M A c d render in
    if last then Some (c', d') else episode_loop M A fuel c' d' render.
Proof. reflexivity. Qed.

(** Enough fuel: the inner loop of [_move_episodes] returns, having
    appended one complete episode. *)
Lemma episode_loop_enough fuel (c : core) (d : dataset) render :
  (Z.to_nat (mdp_horizon M - _episode_steps c) <= fuel)%nat ->
  exists c' ep,
    episode_loop M A (S fuel) c d render = Some (c', d ++ ep)
    /\ whole_episode ep
    /\ follows (_state c) ep (_state c')
    /\ same_frame c c'.
Proof.
  revert c d. induction fuel as [|fuel IH]; intros c d Hf;
    destruct (_step_eq c d render)
      as (smp & c' & E & Hst & _ & _ & Hnx & Hep & Hl & Hfr);
    rewrite episode_loop_S, E.
  - assert (s_last smp = true) as Hlast.
    { rewrite Hl, Hep. apply orb_true_iff. right. apply Z.leb_le. lia. }
    rewrite Hlast. exists c', [smp]. split; [done|]. split.
    { exists [], smp. by repeat split. }
    split; [|done]. cbn. by rewrite Hnx.
  - destruct (s_last smp) eqn:Hlast.
    + exists c', [smp]. split; [done|]. split.
      { exists [], smp. by repeat split. }
      split; [|done]. cbn. by rewrite Hnx.
    + symmetry in Hl. apply orb_false_iff in Hl as [_ Hl].
      apply Z.leb_gt in Hl.
      destruct (IH c' (d ++ [smp])) as (c'' & ep & E' & Hw & Hfo & Hfr').
      { rewrite Hep. lia. }
      rewrite E'. exists c'', (smp :: ep).
      rewrite <- app_assoc. split; [done|]. split.
      { destruct Hw as (init & t & -> & Ht & Hin).
        exists (smp :: init), t. repeat split; auto. }
      split; [|by eapply same_frame_trans].
      cbn. by rewrite <- Hnx.
Qed.

(** [run_episode] is the inner loop on a fuel that suffices. *)
Lemma run_episode_spec (c : core) (d : dataset) render :
  exists c' ep,
    episode_loop M A (episode_fuel M c) c d render = Some (c', d ++ ep)
    /\ run_episode M A c d render = (c', d ++ ep)
    /\ whole_episode ep
    /\ follows (_state c) ep (_state c')
    /\ same_frame c c'.
Proof.
  destruct (episode_loop_enough
              (Z.to_nat (mdp_horizon M - _episode_steps c)) c d render)
    as (c' & ep & E & ?); [lia|].
  exists c', ep. unfold run_episode, episode_fuel. rewrite E. tauto.
Qed.

(** More fuel does not change the result of the inner loop. *)
Lemma episode_loop_more fuel fuel' (c : core) (d : dataset) render r :
  episode_loop M A fuel c d render = Some r -> (fuel <= fuel')%nat ->
  episode_loop M A fuel' c d render = Some r.
Proof.
  revert fuel' c d. induction fuel as [|fuel IH]; intros fuel' c d E Hle;
    [discriminate|].
  destruct fuel' as [|fuel']; [lia|]. rewrite episode_loop_S in *.
  destruct (_step M A c d render) as [[last c'] d'].
  destruct last; [done|]. apply IH; [done|lia].
Qed.

(** *** Lists of episodes *)

Lemma adjacent_app {X : Type} (P : X -> X -> Prop) (l1 l2 : list X) :
  adjacent P l1 -> adjacent P l2 ->
  (forall x y, last l1 = Some x -> head l2 = Some y -> P x y) ->
  adjacent P (l1 ++ l2).
Proof.
  intros H1 H2 Hb i x y Hx Hy.
  apply lookup_app_Some in Hx as [Hx|[Hle Hx]];
    apply lookup_app_Some in Hy as [Hy|[Hle' Hy]].
  - eauto.
  - assert (length l1 = S i) as Hlen
      by (apply lookup_lt_Some in Hx; lia).
    apply Hb.
    + rewrite last_lookup, Hlen. exact Hx.
    + rewrite head_lookup. by replace (S i - length l1)%nat with 0%nat
        in Hy by lia.
  - apply lookup_lt_Some in Hy. lia.
  - apply (H2 (i - length l1)%nat); [done|].
    by replace (S (i - length l1)) with (S i - length l1)%nat by lia.
Qed.

Lemma adjacent_impl {X : Type} (P P' : X -> X -> Prop) (l : list X) :
  (forall x y, P x y -> P' x y) -> adjacent P l -> adjacent P' l.
Proof. intros HP H i x y ??. eauto. Qed.

Lemma follows_adjacent s (ep : dataset) s' :
  follows s ep s' ->
  adjacent (fun x y => s_next_state x = s_state y) ep.
Proof.
  revert s. induction ep as [|x ep IH]; intros s Hf i y z Hy Hz;
    [done|].
  destruct Hf as [_ Hf]. destruct i as [|i]; cbn in Hy, Hz.
  - injection Hy as <-. destruct ep as [|w ep]; [done|].
    cbn in Hz. injection Hz as <-. by destruct Hf as [-> _].
  - eapply IH; eauto.
Qed.

Lemma whole_episode_last (ep : dataset) :
  whole_episode ep -> exists t, last ep = Some t /\ s_last t = true.
Proof.
  intros (init & t & -> & Ht & _). exists t. by rewrite last_snoc.
Qed.

Lemma count_last_app (d1 d2 : dataset) :
  count_last (d1 ++ d2) = (count_last d1 + count_last d2)%nat.
Proof. unfold count_last. by rewrite filter_app, length_app. Qed.

Lemma count_last_whole (ep : dataset) :
  whole_episode ep -> count_last ep = 1%nat.
Proof.
  intros (init & t & -> & Ht & Hin). rewrite count_last_app.
  assert (count_last init = 0%nat) as ->.
  { unfold count_last. induction Hin as [|x l Hx _ IH]; [done|].
    rewrite filter_cons_False; [done|]. by rewrite Hx. }
  unfold count_last. rewrite filter_cons_True by done. done.
Qed.

Lemma count_last_concat (eps : list dataset) :
  Forall whole_episode eps -> count_last (concat eps) = length eps.
Proof.
  induction 1 as [|ep eps Hep _ IH]; [done|].
  by rewrite concat_cons, count_last_app, count_last_whole, IH.
Qed.

(** Within a dataset made of complete episodes, the chain of states is
    broken at most after a transition with [last = true]. *)
Lemma episodes_linked (eps : list dataset) :
  Forall whole_episode eps ->
  Forall (adjacent (fun x y => s_next_state x = s_state y)) eps ->
  adjacent (fun x y => s_last x = false -> s_next_state x = s_state y)
           (concat eps).
Proof.
  induction 1 as [|ep eps Hep _ IH]; intros Hadj; [by intros i ???|].
  apply Forall_cons in Hadj as [Hadj1 Hadj]. cbn.
  apply adjacent_app; [|by apply IH|].
  - eapply adjacent_impl; [|exact Hadj1]. auto.
  - intros x y Hx _ Hl.
    apply whole_episode_last in Hep as (t & Ht & Htl). congruence.
Qed.

(** *** The two collection loops *)

Lemma move_episodes_loop_spec n (c : core) (d : dataset) render :
  exists c' eps,
    move_episodes_loop M A n c d render = (c', d ++ concat eps)
    /\ length eps = n
    /\ Forall whole_episode eps
    /\ Forall (adjacent (fun x y => s_next_state x = s_state y)) eps
    /\ (forall ep, head eps = Some ep ->
                   (s_state <$> head ep) = Some (_state c))
    /\ same_frame c c'.
Proof.
  revert c d. induction n as [|n IH]; intros c d.
  - exists c, []. cbn. rewrite app_nil_r. repeat split; try done.
  - cbn [move_episodes_loop].
    destruct (run_episode_spec c d render)
      as (c1 & ep & _ & -> & Hw & Hfo & Hfr).
    destruct (IH (zero_episode_steps (env_reset M None c1)) (d ++ ep))
      as (c' & eps & -> & Hlen & Hws & Hadj & _ & Hfr').
    exists c', (ep :: eps). cbn. rewrite app_assoc.
    split; [done|]. split; [by rewrite Hlen|].
    split; [by constructor|].
    split; [constructor; [by eapply follows_adjacent|done]|].
    split.
    + intros ? [= <-]. destruct Hw as (init & t & -> & _).
      destruct init; cbn in Hfo |- *; by destruct Hfo as [-> _].
    + eapply same_frame_trans; [exact Hfr|].
      eapply same_frame_trans; [apply same_frame_env_reset|].
      eapply same_frame_trans; [apply same_frame_zero|exact Hfr'].
Qed.

Lemma move_samples_loop_spec n (c : core) (d : dataset) render :
  exists c' d',
    move_samples_loop M A n c d render = (c', d ++ d')
    /\ length d' = n
    /\ same_frame c c'.
Proof.
  revert c d. induction n as [|n IH]; intros c d.
  - exists c, []. cbn. rewrite app_nil_r. by repeat split.
  - cbn [move_samples_loop].
    destruct (_step_eq c d render) as (smp & c1 & -> & H1).
    destruct H1 as (_ & _ & _ & _ & _ & _ & Hfr).
    match goal with
    | |- context [move_samples_loop M A n ?c2 _ _] =>
        destruct (IH c2 (d ++ [smp])) as (c' & d' & -> & Hlen & Hfr');
        assert (same_frame c1 c2) as Hfr2
    end.
    { destruct (s_last smp); [|apply same_frame_refl].
      eapply same_frame_trans;
        [apply same_frame_env_reset|apply same_frame_zero]. }
    exists c', (smp :: d'). rewrite <- app_assoc. cbn.
    split; [done|]. split; [by rewrite Hlen|].
    eapply same_frame_trans; [exact Hfr|].
    eapply same_frame_trans; [exact Hfr2|exact Hfr'].
Qed.

Lemma _move_episodes_spec how_many (c : core) render :
  exists c' eps,
    _move_episodes M A how_many render c = (c', concat eps)
    /\ length eps = Z.to_nat how_many
    /\ Forall whole_episode eps
    /\ Forall (adjacent (fun x y => s_next_state x = s_state y)) eps
    /\ (forall ep, head eps = Some ep ->
                   (s_state <$> head ep) = Some (_state c))
    /\ same_frame c c'.
Proof.
  unfold _move_episodes.
  destruct (move_episodes_loop_spec (Z.to_nat how_many)
              (zero_episode_steps c) [] render)
    as (c' & eps & -> & Hlen & Hw & Hadj & Hhd & Hfr).
  exists c', eps. repeat split; try done; apply Hfr.
Qed.

Lemma _move_samples_spec how_many (c : core) render :
  exists c' d,
    _move_samples M A how_many render c = (c', d)
    /\ length d = Z.to_nat how_many
    /\ same_frame c c'.
Proof.
  unfold _move_samples.
  destruct (move_samples_loop_spec (Z.to_nat how_many) c [] render)
    as (c' & d & -> & Hlen & Hfr).
  by exists c', d.
Qed.

(** *** Fitting and callbacks *)

Lemma run_callbacks_spec k (cbs : list (@callback St Act Rew Cb))
    (d : dataset) w :
  run_callbacks k cbs d w
  = (fold_left (fun w cb => cb d w) cbs w,
     imap (fun i _ => EvCallback (k + i) d) cbs).
Proof.
  revert k w. induction cbs as [|cb cbs IH]; intros k w; [done|].
  cbn [run_callbacks]. rewrite IH. cbn. rewrite Nat.add_0_r.
  do 2 f_equal. apply imap_ext. intros i ? _. cbn. f_equal. lia.
Qed.

Lemma for_xrange_snoc {X : Type} i0 n (body : Z -> X -> X) x :
  for_xrange i0 (S n) body x
  = body (i0 + Z.of_nat n) (for_xrange i0 n body x).
Proof.
  revert i0 x. induction n as [|n IH]; intros i0 x.
  - cbn. by rewrite Z.add_0_r.
  - change (for_xrange i0 (S (S n)) body x)
      with (for_xrange (i0 + 1) (S n) body (body i0 x)).
    rewrite IH. cbn [for_xrange]. f_equal. lia.
Qed.

(** One iteration of [learn] over samples, read off the object. *)
Lemma learn_samples_body_spec how_many n_fit_steps render i (c : core) :
  let cd := _move_samples M A how_many render (set_iteration i c) in
  let c' := learn_samples_body M A how_many n_fit_steps render i c in
  events c'
  = events (fst cd)
    ++ EvFit (snd cd) n_fit_steps
       :: imap (fun k _ => EvCallback k (snd cd)) (callbacks c)
  /\ agent c' = fit A (snd cd) n_fit_steps (agent (fst cd))
  /\ cb_world c'
     = fold_left (fun w cb => cb (snd cd) w) (callbacks c) (cb_world c)
  /\ callbacks c' = callbacks c
  /\ _total_steps c' = _total_steps c + 1.
Proof.
  unfold learn_samples_body.
  destruct (_move_samples_spec how_many (set_iteration i c) render)
    as (c1 & d & -> & _ & Hcb & Hw & Hts & _).
  cbn in Hcb, Hw, Hts. cbn [fst snd].
  unfold call_callbacks, call_fit. cbn.
  rewrite run_callbacks_spec, Hcb, Hw, Hts. cbn.
  by rewrite <- app_assoc.
Qed.

(** One iteration of [learn] over episodes, read off the object. *)
Lemma learn_episodes_body_spec how_many n_fit_steps render i (c : core) :
  let cd := _move_episodes M A how_many render (set_iteration i c) in
  let c' := learn_episodes_body M A how_many n_fit_steps render i c in
  events c'
  = events (fst cd)
    ++ EvFit (snd cd) n_fit_steps
       :: imap (fun k _ => EvCallback k (snd cd)) (callbacks c)
  /\ agent c' = fit A (snd cd) n_fit_steps (agent (fst cd))
  /\ cb_world c'
     = fold_left (fun w cb => cb (snd cd) w) (callbacks c) (cb_world c)
  /\ callbacks c' = callbacks c
  /\ _total_steps c' = _total_steps c.
Proof.
  unfold learn_episodes_body.
  destruct (_move_episodes_spec how_many (set_iteration i c) render)
    as (c1 & eps & -> & _ & _ & _ & _ & Hcb & Hw & Hts & _).
  cbn in Hcb, Hw, Hts. cbn [fst snd].
  unfold call_callbacks, call_fit. cbn.
  rewrite run_callbacks_spec, Hcb, Hw, Hts. cbn.
  by rewrite <- app_assoc.
Qed.

Lemma learn_samples_total_steps how_many n_fit_steps render n i0
    (c : core) :
  _total_steps
    (for_xrange i0 n (learn_samples_body M A how_many n_fit_steps render)
                c)
  = _total_steps c + Z.of_nat n.
Proof.
  induction n as [|n IH]; [cbn; lia|].
  rewrite for_xrange_snoc.
  destruct (learn_samples_body_spec how_many n_fit_steps render
              (i0 + Z.of_nat n)
              (for_xrange i0 n
                 (learn_samples_body M A how_many n_fit_steps render) c))
    as (_ & _ & _ & _ & ->).
  rewrite IH. lia.
Qed.

Lemma learn_episodes_total_steps how_many n_fit_steps render n i0
    (c : core) :
  _total_steps
    (for_xrange i0 n (learn_episodes_body M A how_many n_fit_steps render)
                c)
  = _total_steps c.
Proof.
  induction n as [|n IH]; [done|].
  rewrite for_xrange_snoc.
  destruct (learn_episodes_body_spec how_many n_fit_steps render
              (i0 + Z.of_nat n)
              (for_xrange i0 n
                 (learn_episodes_body M A how_many n_fit_steps render) c))
    as (_ & _ & _ & _ & ->).
  exact IH.
Qed.

(** [_move_episodes] leaves the counter at 0: it zeroes it on entry and
    after every environment reset. *)
Lemma move_episodes_loop_counter n (c : core) (d : dataset) render :
  _episode_steps c = 0 ->
  _episode_steps (fst (move_episodes_loop M A n c d render)) = 0.
Proof.
  revert c d. induction n as [|n IH]; intros c d Hc; [done|].
  cbn [move_episodes_loop].
  destruct (run_episode M A c d render) as [c1 d1]. by apply IH.
Qed.

Lemma _move_episodes_counter how_many (c : core) render :
  _episode_steps (fst (_move_episodes M A how_many render c)) = 0.
Proof. by apply move_episodes_loop_counter. Qed.

(** *** Sizes of the collected datasets *)

(** C4: for every N > 0, collecting N samples returns a dataset of exactly
    N transitions; collecting N episodes returns a dataset that is the
    concatenation of exactly N episodes, in each of which the final
    transition has [last = true] and every earlier one has
    [last = false], so that it holds exactly N transitions with
    [last = true]. *)
Theorem collection_sizes (N : Z) (c : core) (render : bool) :
  0 < N ->
  Z.of_nat (length (snd (_move_samples M A N render c))) = N
  /\ exists eps : list dataset,
       snd (_move_episodes M A N render c) = concat eps
       /\ Z.of_nat (length eps) = N
       /\ Forall whole_episode eps
       /\ Z.of_nat (count_last (snd (_move_episodes M A N render c))) = N.
Proof.
  intros HN. split.
  - destruct (_move_samples_spec N c render) as (c' & d & -> & Hlen & _).
    cbn [snd]. lia.
  - destruct (_move_episodes_spec N c render)
      as (c' & eps & -> & Hlen & Hw & _).
    exists eps. cbn [snd]. rewrite count_last_concat, Hlen by done.
    repeat split; try done; lia.
Qed.

(** *** The chain of states *)

(** C10: a step records the loop's current state as the [state] of its
    transition and moves the loop to the transition's [next_state]; the
    dataset of [_move_episodes] splits into complete episodes, within each
    of which the [next_state] of a transition is the [state] of the
    following one; in the dataset as a whole this holds for every pair of
    consecutive transitions whose first one does not close an episode. *)
Theorem transitions_chain (N : Z) (c : core) (d : dataset)
    (render : bool) :
  (exists smp c',
      _step M A c d render = (s_last smp, c', d ++ [smp])
      /\ s_state smp = _state c
      /\ _state c' = s_next_state smp)
  /\ (exists eps : list dataset,
        snd (_move_episodes M A N render c) = concat eps
        /\ length eps = Z.to_nat N
        /\ Forall whole_episode eps
        /\ Forall (adjacent (fun x y => s_next_state x = s_state y)) eps
        /\ (forall ep, head eps = Some ep ->
                       (s_state <$> head ep) = Some (_state c)))
  /\ adjacent (fun x y => s_last x = false -> s_next_state x = s_state y)
              (snd (_move_episodes M A N render c)).
Proof.
  split; [|split].
  - destruct (_step_eq c d render) as (smp & c' & E & Hs & _ & _ & Hn & _).
    by exists smp, c'.
  - destruct (_move_episodes_spec N c render)
      as (c' & eps & -> & Hlen & Hw & Hadj & Hhd & _).
    by exists eps.
  - destruct (_move_episodes_spec N c render)
      as (c' & eps & -> & Hlen & Hw & Hadj & _).
    by apply episodes_linked.
Qed.

(** *** Iterations of [learn] *)

(** C8: in an iteration of [learn], the interactions after the collection
    are the call of [fit] on the collected dataset followed by the calls
    of the callbacks on that dataset in registration order, in both modes;
    an iteration over samples adds one to [_total_steps], an iteration over
    episodes leaves it; [learn] returns normally in both modes, iteration
    [n] of it is the loop body of its mode run on the object left by the
    first [n] iterations, and after [n] iterations [_total_steps] has grown
    by [n] over samples and not at all over episodes. *)
Theorem learn_fit_then_callbacks (n how_many n_fit_steps i : Z)
    (render quiet : bool) (c : core) :
  0 <= n ->
  (let cd := _move_samples M A how_many render (set_iteration i c) in
   let c' := learn_samples_body M A how_many n_fit_steps render i c in
   events c'
   = events (fst cd)
     ++ EvFit (snd cd) n_fit_steps
        :: imap (fun k _ => EvCallback k (snd cd)) (callbacks c)
   /\ agent c' = fit A (snd cd) n_fit_steps (agent (fst cd))
   /\ cb_world c'
      = fold_left (fun w cb => cb (snd cd) w) (callbacks c) (cb_world c)
   /\ _total_steps c' = _total_steps c + 1)
  /\ (let cd := _move_episodes M A how_many render (set_iteration i c) in
      let c' := learn_episodes_body M A how_many n_fit_steps render i c in
      events c'
      = events (fst cd)
        ++ EvFit (snd cd) n_fit_steps
           :: imap (fun k _ => EvCallback k (snd cd)) (callbacks c)
      /\ agent c' = fit A (snd cd) n_fit_steps (agent (fst cd))
      /\ cb_world c'
         = fold_left (fun w cb => cb (snd cd) w) (callbacks c)
                     (cb_world c)
      /\ _total_steps c' = _total_steps c)
  /\ (exists cn,
         learn M A n how_many n_fit_steps "samples"%string render quiet c
         = Ok cn tt
         /\ _total_steps cn = _total_steps c + n
         /\ learn M A (n + 1) how_many n_fit_steps "samples"%string render quiet c
            = Ok (learn_samples_body M A how_many n_fit_steps render n cn)
                 tt)
  /\ (exists cn,
         learn M A n how_many n_fit_steps "episodes"%string render quiet c
         = Ok cn tt
         /\ _total_steps cn = _total_steps c
         /\ learn M A (n + 1) how_many n_fit_steps "episodes"%string render
                  quiet c
            = Ok (learn_episodes_body M A how_many n_fit_steps render n cn)
                 tt).
Proof.
  intros Hn. split; [|split; [|split]].
  - pose proof (learn_samples_body_spec how_many n_fit_steps render i c).
    cbn zeta in *. tauto.
  - pose proof (learn_episodes_body_spec how_many n_fit_steps render i c).
    cbn zeta in *. tauto.
  - eexists. split; [reflexivity|]. split.
    + rewrite learn_samples_total_steps. lia.
    + unfold learn. cbn [String.eqb Ascii.eqb Bool.eqb orb negb].
      replace (Z.to_nat (n + 1)) with (S (Z.to_nat n)) by lia.
      rewrite for_xrange_snoc. do 2 f_equal. lia.
  - eexists. split; [reflexivity|]. split.
    + apply learn_episodes_total_steps.
    + unfold learn. cbn [String.eqb Ascii.eqb Bool.eqb orb negb].
      replace (Z.to_nat (n + 1)) with (S (Z.to_nat n)) by lia.
      rewrite for_xrange_snoc. do 2 f_equal. lia.
Qed.

(** *** [reset] *)

(** C9: [reset] takes the current state from the environment's default
    reset, sets both counters to 0, and leaves the agent (with everything
    it has learned), the callbacks and their state, and the loop variable
    as they were; a [learn] of zero iterations after it returns the object
    [reset] left, in both modes. *)
Theorem reset_frame (how_many n_fit_steps : Z) (render quiet : bool)
    (c : core) :
  (_state (reset M c), mdp (reset M c)) = mdp_reset M None (mdp c)
  /\ _total_steps (reset M c) = 0
  /\ _episode_steps (reset M c) = 0
  /\ agent (reset M c) = agent c
  /\ callbacks (reset M c) = callbacks c
  /\ cb_world (reset M c) = cb_world c
  /\ iteration (reset M c) = iteration c
  /\ events (reset M c) = events c ++ [EvReset None]
  /\ learn M A 0 how_many n_fit_steps "samples"%string render quiet (reset M c)
     = Ok (reset M c) tt
  /\ learn M A 0 how_many n_fit_steps "episodes"%string render quiet (reset M c)
     = Ok (reset M c) tt.
Proof.
  unfold reset. destruct (mdp_reset M None (mdp c)) as [s env].
  by repeat split.
Qed.

(** *** Rejected configurations *)

(** [learn] raises before any interaction when [iterate_over] is not one
    of the two literals. *)
Lemma learn_rejects n how_many n_fit_steps iterate_over render quiet
    (c : core) :
  iterate_over <> "samples"%string -> iterate_over <> "episodes"%string ->
  learn M A n how_many n_fit_steps iterate_over render quiet c
  = Raise AssertionError c.
Proof.
  intros H1 H2. unfold learn.
  apply String.eqb_neq in H1, H2. by rewrite H1, H2.
Qed.

(** [evaluate] raises before any interaction when initial states come
    with an [iterate_over] other than ['episodes']. *)
Lemma evaluate_rejects how_many iterate_over inits render quiet
    (c : core) :
  iterate_over <> "episodes"%string ->
  evaluate M A how_many iterate_over (Some inits) render quiet c
  = Raise AssertionError c.
Proof.
  intros H1. unfold evaluate.
  apply String.eqb_neq in H1. by rewrite H1.
Qed.

(** Without initial states, [evaluate] runs every [iterate_over] other than
    ['episodes'] as it runs ['samples']. *)
Lemma evaluate_default_branch how_many iterate_over render quiet
    (c : core) :
  iterate_over <> "episodes"%string ->
  evaluate M A how_many iterate_over None render quiet c
  = evaluate M A how_many "samples" None render quiet c.
Proof.
  intros H1. unfold evaluate. apply String.eqb_neq in H1. by rewrite H1.
Qed.
End Facts.
End CoreFacts.

(** * The loop on the corridor *)

Module CorridorRuns.
Import Core Toy.

(** C3 (the code at the failing input): two steps into an episode,
    [evaluate(1, 'samples')] resets the environment and takes one step
    without setting [_episode_steps] to 0.  Under horizon 5 the counter
    stands at 3 after the single step that followed the reset; under
    horizon 3 that step, the first of its episode and not absorbing, is
    recorded with [last = true]. *)
Theorem evaluate_samples_reset_keeps_counter :
  _episode_steps (two_steps_in 5) = 2
  /\ (exists c t,
        evaluate (corridor 5 None) walker 1 "samples" None false false
                 (two_steps_in 5) = Ok c [t]
        /\ events c
           = events (two_steps_in 5)
             ++ [EvReset None; EvDrawAction 0%nat; EvStep 0%nat]
        /\ _episode_steps c = 3)
  /\ (exists c t,
        evaluate (corridor 3 None) walker 1 "samples" None false false
                 (two_steps_in 3) = Ok c [t]
        /\ events c
           = events (two_steps_in 3)
             ++ [EvReset None; EvDrawAction 0%nat; EvStep 0%nat;
                 EvReset None]
        /\ s_state t = 0%nat /\ s_absorbing t = false
        /\ s_last t = true).
Proof.
  split; [reflexivity|]. split.
  - eexists _, _. split; [vm_compute; reflexivity|]. by split.
  - eexists _, _. split; [vm_compute; reflexivity|]. by repeat split.
Qed.

(** C5 (the code at the failing input): [evaluate] without initial states
    and with [iterate_over = 'foo'] raises nothing; it resets the
    environment, draws an action, steps the environment and returns the
    transition. *)
Theorem evaluate_unknown_mode_runs :
  exists c t,
    evaluate (corridor 3 None) walker 1 "foo" None false false
             (start 3 None) = Ok c [t]
    /\ events c
       = events (start 3 None)
         ++ [EvReset None; EvDrawAction 0%nat; EvStep 0%nat].
Proof.
  eexists _, _. split; [vm_compute; reflexivity|]. reflexivity.
Qed.

Lemma collection_sizes_corridor :
  0 < 2
  /\ Z.of_nat
       (length (snd (_move_samples (corridor 3 None) walker 2 false
                                   (start 3 None)))) = 2.
Proof.
  split; [lia|].
  exact (proj1 (CoreFacts.collection_sizes (corridor 3 None) walker 2
                  (start 3 None) false ltac:(lia))).
Defined.

Lemma learn_fit_then_callbacks_corridor :
  0 <= 2
  /\ (exists cn,
         learn (corridor 3 None) walker 2 1 1 "samples" false false
               (start 3 None) = Ok cn tt
         /\ _total_steps cn = _total_steps (start 3 None) + 2
         /\ learn (corridor 3 None) walker (2 + 1) 1 1 "samples" false false
                  (start 3 None)
            = Ok (learn_samples_body (corridor 3 None) walker 1 1 false 2 cn)
                 tt)
  /\ (exists cn,
         learn (corridor 3 None) walker 2 1 1 "episodes" false false
               (start 3 None) = Ok cn tt
         /\ _total_steps cn = _total_steps (start 3 None)
         /\ learn (corridor 3 None) walker (2 + 1) 1 1 "episodes" false
                  false (start 3 None)
            = Ok (learn_episodes_body (corridor 3 None) walker 1 1 false 2
                    cn) tt).
Proof.
  split; [lia|].
  exact (proj2 (proj2 (CoreFacts.learn_fit_then_callbacks
                         (corridor 3 None) walker 2 1 1 0 false false
                         (start 3 None) ltac:(lia)))).
Defined.

End CorridorRuns.

(** * Properties of arrays *)

Module Array2Facts.
Import Array2.

Section Facts.
Context {F : Type} `{Arith F}.

Lemma getitem_Some (t : array F) s a x :
  getitem t s a = Some x <->
  exists row, t !! s = Some row /\ row !! a = Some x.
Proof.
  unfold getitem. destruct (t !! s) as [row|]; cbn.
  - split; [by exists row|]. by intros (? & [= <-] & ?).
  - split; [done|]. by intros (? & ? & _).
Qed.

Lemma getitem_Some_None (t : array F) s a :
  getitem t s a = None -> forall row, t !! s = Some row -> row !! a = None.
Proof. unfold getitem. intros Hn row Hr. by rewrite Hr in Hn. Qed.

Lemma getitem_iadd (t u : array F) i j :
  getitem (iadd t u) i j
  = x ← getitem t i j; y ← getitem u i j; Some (fadd x y).
Proof.
  unfold getitem, iadd. rewrite lookup_zip_with.
  destruct (t !! i) as [r|]; [|done]. cbn.
  destruct (u !! i) as [r'|]; cbn.
  - by rewrite lookup_zip_with.
  - by destruct (r !! j).
Qed.

Lemma getitem_scalar_mul c (t : array F) i j :
  getitem (scalar_mul c t) i j = fmul c <$> getitem t i j.
Proof.
  unfold getitem, scalar_mul. rewrite list_lookup_fmap.
  destruct (t !! i) as [r|]; [|done]. cbn. by rewrite list_lookup_fmap.
Qed.

Lemma getitem_imul (t : array F) k i j :
  getitem (imul t k) i j = (fun x => fmul x k) <$> getitem t i j.
Proof.
  unfold getitem, imul. rewrite list_lookup_fmap.
  destruct (t !! i) as [r|]; [|done]. cbn. by rewrite list_lookup_fmap.
Qed.

Lemma setitem_Some (t : array F) s a v :
  is_Some (getitem t s a) ->
  exists row,
    t !! s = Some row /\ setitem t s a v = Some (<[s := <[a := v]> row]> t).
Proof.
  intros [x Hx]. apply getitem_Some in Hx as (row & Hr & Hx).
  exists row. split; [done|]. unfold setitem. by rewrite Hr; cbn; rewrite Hx.
Qed.

Lemma setitem_inv (t t' : array F) s a v :
  setitem t s a v = Some t' ->
  exists row x,
    t !! s = Some row /\ row !! a = Some x
    /\ t' = <[s := <[a := v]> row]> t.
Proof.
  unfold setitem. destruct (t !! s) as [row|] eqn:Hr; [|done]. cbn.
  destruct (row !! a) as [x|] eqn:Hx; [|done]. cbn. intros [= <-].
  by exists row, x.
Qed.

(** Reading an array after a write. *)
Lemma getitem_setitem (t t' : array F) s a v i j :
  setitem t s a v = Some t' ->
  getitem t' i j
  = if bool_decide (i = s /\ j = a) then Some v else getitem t i j.
Proof.
  intros (row & x & Hr & Hx & ->)%setitem_inv. unfold getitem.
  destruct (decide (i = s)) as [->|Hi].
  - rewrite list_lookup_insert_eq by (by eapply lookup_lt_Some).
    rewrite Hr. cbn. destruct (decide (j = a)) as [->|Hj].
    + rewrite bool_decide_eq_true_2 by done.
      apply list_lookup_insert_eq. by eapply lookup_lt_Some.
    + rewrite bool_decide_eq_false_2 by tauto.
      by apply list_lookup_insert_ne.
  - rewrite bool_decide_eq_false_2 by tauto.
    by rewrite list_lookup_insert_ne.
Qed.

Lemma all_entries_getitem (P : F -> Prop) (t : array F) :
  all_entries P t <-> forall i j x, getitem t i j = Some x -> P x.
Proof.
  unfold all_entries. rewrite Forall_lookup. split.
  - intros Ht i j x (row & Hr & Hx)%getitem_Some.
    specialize (Ht i row Hr). rewrite Forall_lookup in Ht. eauto.
  - intros Ht i row Hr. rewrite Forall_lookup. intros j x Hx.
    apply (Ht i j). apply getitem_Some. eauto.
Qed.

Lemma all_entries_setitem (P : F -> Prop) (t t' : array F) s a v :
  all_entries P t -> P v -> setitem t s a v = Some t' -> all_entries P t'.
Proof.
  rewrite !all_entries_getitem. intros Ht Hv Hs i j x.
  rewrite (getitem_setitem _ _ _ _ _ _ _ Hs).
  case_bool_decide; [by intros [= <-]|eauto].
Qed.

Lemma all_entries_imul (P P' : F -> Prop) (t : array F) k :
  (forall x, P x -> P' (fmul x k)) ->
  all_entries P t -> all_entries P' (imul t k).
Proof.
  rewrite !all_entries_getitem. intros HP Ht i j y.
  rewrite getitem_imul. destruct (getitem t i j) as [x|] eqn:Hx; [|done].
  intros [= <-]. eauto.
Qed.

Lemma has_shape_getitem n m (t u : array F) i j :
  has_shape n m t -> has_shape n m u ->
  is_Some (getitem t i j) -> is_Some (getitem u i j).
Proof.
  intros [Hn Hm] [Hn' Hm'] [x (row & Hr & Hx)%getitem_Some].
  destruct (lookup_lt_is_Some_2 u i) as [row' Hr'].
  { rewrite Hn', <- Hn. by eapply lookup_lt_Some. }
  rewrite Forall_lookup in Hm, Hm'.
  destruct (lookup_lt_is_Some_2 row' j) as [y Hy].
  { rewrite (Hm' _ _ Hr'), <- (Hm _ _ Hr). by eapply lookup_lt_Some. }
  exists y. apply getitem_Some. eauto.
Qed.

(** Two arrays with the same entries and the same out-of-range indices
    are equal. *)
Lemma array_eq (t u : array F) :
  length t = length u ->
  (forall i r r', t !! i = Some r -> u !! i = Some r' ->
                  length r = length r') ->
  (forall i j, getitem t i j = getitem u i j) -> t = u.
Proof.
  intros Hlen Hrows Hget.
  apply (list_eq_same_length t u (length t)); [by symmetry|done|].
  intros i r r' _ Hr Hr'.
  apply (list_eq_same_length r r' (length r));
    [by symmetry; eapply Hrows|done|].
  intros j x y _ Hx Hy. specialize (Hget i j). unfold getitem in Hget.
  rewrite Hr, Hr' in Hget. cbn in Hget. congruence.
Qed.

(** *** Shapes *)

Lemma has_shape_lookup n m (t : array F) i :
  has_shape n m t ->
  (i < n)%nat -> exists row, t !! i = Some row /\ length row = m.
Proof.
  intros [Hn Hm] Hi. destruct (lookup_lt_is_Some_2 t i) as [row Hr]; [lia|].
  exists row. split; [done|]. rewrite Forall_lookup in Hm. eauto.
Qed.

Lemma has_shape_fmap n m (f : F -> F) (t : array F) :
  has_shape n m t ->
  has_shape n m ((fun row : list F => f <$> row) <$> t).
Proof.
  intros [Hn Hm]. split; [by rewrite length_fmap|].
  apply Forall_fmap. eapply Forall_impl; [exact Hm|].
  intros row Hrow. cbn. by rewrite length_fmap.
Qed.

Lemma has_shape_iadd n m (t u : array F) :
  has_shape n m t -> has_shape n m u -> has_shape n m (iadd t u).
Proof.
  intros [Hn Hm] [Hn' Hm']. unfold iadd. split.
  - rewrite length_zip_with. lia.
  - rewrite Forall_lookup in Hm, Hm'. apply Forall_lookup. intros i row.
    rewrite lookup_zip_with.
    destruct (t !! i) as [r|] eqn:Hr; [|done]. cbn.
    destruct (u !! i) as [r'|] eqn:Hr'; [|done]. cbn. intros [= <-].
    rewrite length_zip_with, (Hm _ _ Hr), (Hm' _ _ Hr'). lia.
Qed.

Lemma has_shape_setitem n m (t t' : array F) s a v :
  has_shape n m t -> setitem t s a v = Some t' -> has_shape n m t'.
Proof.
  intros [Hn Hm] (row & x & Hr & Hx & ->)%setitem_inv. split.
  - by rewrite length_insert.
  - apply Forall_insert; [done|]. rewrite length_insert.
    rewrite Forall_lookup in Hm. eauto.
Qed.

Lemma has_shape_getitem_lt n m (t : array F) i j :
  has_shape n m t -> is_Some (getitem t i j) <-> (i < n)%nat /\ (j < m)%nat.
Proof.
  intros Ht. split.
  - intros [x (row & Hr & Hx)%getitem_Some]. destruct Ht as [<- Hm].
    rewrite Forall_lookup in Hm. rewrite <- (Hm _ _ Hr).
    split; by eapply lookup_lt_Some.
  - intros [Hi Hj].
    destruct (has_shape_lookup n m t i Ht Hi) as (row & Hr & Hlen).
    destruct (lookup_lt_is_Some_2 row j) as [x Hx]; [lia|].
    exists x. apply getitem_Some. eauto.
Qed.

(** Arrays of one shape with the same entries are equal. *)
Lemma array_eq_shape n m (t u : array F) :
  has_shape n m t -> has_shape n m u ->
  (forall i j, getitem t i j = getitem u i j) -> t = u.
Proof.
  intros [Hn Hm] [Hn' Hm'] Hget. apply array_eq; [congruence| |done].
  intros i r r' Hr Hr'. rewrite Forall_lookup in Hm, Hm'.
  by rewrite (Hm _ _ Hr), (Hm' _ _ Hr').
Qed.

Lemma getitem_one_hot (t : array F) s a i j :
  getitem (one_hot t s a) i j
  = (fun _ => if bool_decide (i = s /\ j = a) then fone else fzero)
      <$> getitem t i j.
Proof.
  unfold getitem, one_hot. rewrite list_lookup_imap.
  destruct (t !! i) as [row|]; [|done]. cbn. by rewrite list_lookup_imap.
Qed.

Lemma has_shape_one_hot n m (t : array F) s a :
  has_shape n m t -> has_shape n m (one_hot t s a).
Proof.
  intros [Hn Hm]. unfold one_hot. split; [by rewrite length_imap|].
  rewrite Forall_lookup in Hm. apply Forall_lookup. intros i row.
  rewrite list_lookup_imap. destruct (t !! i) as [r|] eqn:Hr; [|done].
  cbn. intros [= <-]. rewrite length_imap. eauto.
Qed.

Lemma has_shape_zeros n m : has_shape n m (zeros n m).
Proof.
  unfold zeros. split; [by rewrite length_replicate|].
  apply Forall_replicate. by rewrite length_replicate.
Qed.
End Facts.
End Array2Facts.

(** * Properties of SARSA(lambda) *)

Module SARSAFacts.
Import Array2 Array2Facts SARSALambda.

Section Facts.
Context {F : Type} `{Arith F} {Pol LR : Type}.
Variable T : TD F Pol LR.

Abbreviation agent := (agent F Pol LR).

(** [_update] in terms of the values it computes on the way. *)
Lemma _update_eq (ag : agent) s a r s' absorbing :
  _update T ag s a r s' absorbing
  = q_current ← getitem (Q ag) s a;
    q_next ← bootstrap T ag s' absorbing;
    e1 ← trace_update (mode ag) (e ag) s a;
    Some (MkAgent
            (iadd (Q ag)
                  (scalar_mul
                     (fmul (step_size T ag s a)
                           (td_error r (gamma ag) q_next q_current))
                     e1))
            (imul e1 (fmul (gamma ag) (_lambda ag)))
            (mode ag) (_lambda ag) (gamma ag)
            (Some (drawn_action T ag s'))
            (snd (td_draw_action T (Q ag) s' (policy ag)))
            (snd (td_alpha T s a (learning_rate ag)))).
Proof.
  unfold _update, bootstrap, drawn_action, step_size.
  destruct (getitem (Q ag) s a) as [q|]; [|done]. cbn.
  destruct (td_draw_action T (Q ag) s' (policy ag)) as [na pol]. cbn.
  destruct (if negb absorbing then getitem (Q ag) s' na else Some fzero)
    as [q'|]; [|done]. cbn.
  destruct (trace_update (mode ag) (e ag) s a) as [e1|]; [|done]. cbn.
  by destruct (td_alpha T s a (learning_rate ag)) as [al lr].
Qed.

Lemma trace_update_Some (ag : agent) s a :
  is_Some (getitem (e ag) s a) ->
  is_Some (trace_update (mode ag) (e ag) s a).
Proof.
  intros Hx. unfold trace_update. destruct (mode ag).
  - destruct (setitem_Some (e ag) s a fone Hx) as (row & _ & ->).
    by eexists.
  - pose proof Hx as [x Hx']. rewrite Hx'. cbn.
    destruct (setitem_Some (e ag) s a (fadd x fone) Hx) as (row & _ & ->).
    by eexists.
Qed.

(** C1: on a table and a trace of one shape, with [(state, action)] inside
    the table and, unless the transition is absorbing, the pair of
    [next_state] and the action drawn there inside it as well, [_update]
    returns; the TD error is [reward + gamma * q_next - q_current], where
    [q_current] is the entry at [(state, action)] of the table before the
    call and [q_next] is the entry at [next_state] and the drawn action
    when [absorbing] is false and [0.] when it is true (no entry at
    [next_state] is needed then); every entry of the new table is the old
    entry plus [alpha(state, action) * delta] times the entry of the
    trace as [e.update] left it, and every entry of the new trace is
    that same trace entry times [gamma * lambda]. *)
Theorem update_spec (ag : agent) (n m s a : nat) (r : F) (s' : nat)
    (absorbing : bool) (q_current : F) :
  has_shape n m (Q ag) -> has_shape n m (e ag) ->
  getitem (Q ag) s a = Some q_current ->
  (absorbing = false ->
   is_Some (getitem (Q ag) s' (drawn_action T ag s'))) ->
  exists q_next e1 ag',
    _update T ag s a r s' absorbing = Some ag'
    /\ Some q_next
       = (if absorbing then Some fzero
          else getitem (Q ag) s' (drawn_action T ag s'))
    /\ trace_update (mode ag) (e ag) s a = Some e1
    /\ next_action ag' = Some (drawn_action T ag s')
    /\ let delta := fsub (fadd r (fmul (gamma ag) q_next)) q_current in
       let alpha := step_size T ag s a in
       (forall i j,
           getitem (Q ag') i j
           = q ← getitem (Q ag) i j; x ← getitem e1 i j;
             Some (fadd q (fmul (fmul alpha delta) x)))
       /\ (forall i j,
             getitem (e ag') i j
             = (fun x => fmul x (fmul (gamma ag) (_lambda ag)))
                 <$> getitem e1 i j).
Proof.
  intros HQ He Hq Hnext.
  assert (is_Some (bootstrap T ag s' absorbing)) as [q_next Hb].
  { unfold bootstrap. destruct absorbing; cbn; [by eexists|by apply Hnext]. }
  destruct (trace_update_Some ag s a) as [e1 He1].
  { apply (has_shape_getitem n m (Q ag) (e ag)); [done|done|by eexists]. }
  rewrite _update_eq, Hq, Hb, He1. cbn.
  eexists q_next, e1, _. split; [reflexivity|]. cbn.
  split; [|split; [done|split; [done|split]]].
  - unfold bootstrap in Hb. by destruct absorbing.
  - intros i j. rewrite getitem_iadd, getitem_scalar_mul.
    destruct (getitem (Q ag) i j); [|done]. cbn.
    by destruct (getitem e1 i j).
  - intros i j. by rewrite getitem_imul.
Qed.

(** *** The replacing trace stays in the unit interval *)

Lemma trace_reset_zero (t : array F) :
  all_entries (fun x => x = fzero) (trace_reset t).
Proof.
  unfold all_entries, trace_reset. apply Forall_fmap, Forall_true.
  intros row. cbn. by apply Forall_fmap, Forall_true.
Qed.

Lemma all_entries_impl (P P' : F -> Prop) (t : array F) :
  (forall x, P x -> P' x) -> all_entries P t -> all_entries P' t.
Proof.
  intros HP Ht. eapply Forall_impl; [exact Ht|].
  intros row Hrow. eapply Forall_impl; [exact Hrow|done].
Qed.

Lemma in_episode_inv `{!UnitLaws F} (ag : agent) :
  in_episode T ag ->
  mode ag = Replacing /\ in_unit (gamma ag) /\ in_unit (_lambda ag)
  /\ all_entries in_unit (e ag).
Proof.
  induction 1 as [ag Hm Hg Hl|ag s a r s' ab ag' _ IH Hup].
  - split; [done|]. split; [done|]. split; [done|]. cbn.
    eapply all_entries_impl; [|apply trace_reset_zero].
    intros x ->. apply in_unit_zero.
  - destruct IH as (Hm & Hg & Hl & He).
    rewrite _update_eq in Hup.
    destruct (getitem (Q ag) s a) as [q|]; [|done].
    destruct (bootstrap T ag s' ab) as [q'|]; [|done].
    destruct (trace_update (mode ag) (e ag) s a) as [e1|] eqn:He1;
      [|done].
    cbn in Hup. injection Hup as <-. cbn.
    split; [done|]. split; [done|]. split; [done|].
    rewrite Hm in He1. cbn in He1.
    eapply all_entries_imul;
      [|by eapply all_entries_setitem; [exact He|apply in_unit_one|]].
    intros x Hx. apply in_unit_mul; [done|]. by apply in_unit_mul.
Qed.

(** C7: for an agent with the replacing trace and with [gamma] and
    [lambda] in [[0,1]], at any point reached from an episode start (which
    zeroes the trace) by updates and further episode starts, the trace as
    [e.update] leaves it holds [1.0] at the visited pair and has all its
    entries in [[0,1]]. *)
Theorem trace_entries_in_unit `{!UnitLaws F} (ag : agent) (s a : nat)
    (e1 : array F) :
  in_episode T ag ->
  trace_update (mode ag) (e ag) s a = Some e1 ->
  all_entries in_unit e1 /\ getitem e1 s a = Some fone.
Proof.
  intros (Hm & _ & _ & He)%in_episode_inv He1.
  rewrite Hm in He1. cbn in He1. split.
  - eapply all_entries_setitem; [exact He|apply in_unit_one|exact He1].
  - rewrite (getitem_setitem _ _ _ _ _ _ _ He1).
    by rewrite bool_decide_eq_true_2.
Qed.

(** Between updates as well, the trace is in the unit interval. *)
Lemma trace_in_unit_between `{!UnitLaws F} (ag : agent) :
  in_episode T ag -> all_entries in_unit (e ag).
Proof. by intros (_ & _ & _ & He)%in_episode_inv. Qed.

(** A new episode may start at any point of the run. *)
Lemma in_episode_restart `{!UnitLaws F} (ag : agent) :
  in_episode T ag -> in_episode T (episode_start T ag).
Proof.
  intros (Hm & Hg & Hl & _)%in_episode_inv. by constructor.
Qed.

(** *** [lambda = 0]: one-step SARSA *)

(** On an all-zero trace both trace modes write [1.0] at the visited
    pair. *)
Lemma trace_update_zero `{!OneHotLaws F} (ag : agent) s a :
  all_entries (fun x => x = fzero) (e ag) ->
  trace_update (mode ag) (e ag) s a = setitem (e ag) s a fone.
Proof.
  intros He. unfold trace_update. destruct (mode ag); [done|].
  destruct (getitem (e ag) s a) as [x|] eqn:Hx; cbn.
  - rewrite all_entries_getitem in He.
    by rewrite (He _ _ _ Hx), fadd_0_l.
  - unfold setitem. pose proof (getitem_Some_None _ _ _ Hx) as Hrow.
    destruct (e ag !! s) as [row|]; [|done]. cbn.
    by rewrite (Hrow row eq_refl).
Qed.

(** C6: with [lambda = 0], a table and a trace of one shape, the trace
    all-zero and the transition [(s, a, r, s', absorbing = false)] inside
    the table, [_update] returns; the trace as [e.update] leaves it is the
    one-hot array for [(s, a)]; the new table is the table of one-step
    SARSA, that is, entry [(s, a)] has grown by
    [alpha(s,a) * (r + gamma*Table[s',a''] - Table[s,a])] and every other
    entry is unchanged; and the trace is all-zero again after the call. *)
Theorem lambda_zero_is_one_step `{!OneHotLaws F} (ag : agent)
    (n m s a : nat) (r : F) (s' : nat) (q q' : F) :
  has_shape n m (Q ag) -> has_shape n m (e ag) ->
  _lambda ag = fzero ->
  all_entries (fun x => x = fzero) (e ag) ->
  getitem (Q ag) s a = Some q ->
  getitem (Q ag) s' (drawn_action T ag s') = Some q' ->
  exists e1 ag',
    trace_update (mode ag) (e ag) s a = Some e1
    /\ e1 = one_hot (e ag) s a
    /\ _update T ag s a r s' false = Some ag'
    /\ sarsa_one_step T ag s a r s' = Some (Q ag')
    /\ getitem (Q ag') s a
       = Some (fadd q (fmul (step_size T ag s a)
                            (fsub (fadd r (fmul (gamma ag) q')) q)))
    /\ (forall i j, ~ (i = s /\ j = a) ->
                    getitem (Q ag') i j = getitem (Q ag) i j)
    /\ all_entries (fun x => x = fzero) (e ag').
Proof.
  intros HQ He Hl Hz Hq Hq'.
  assert (is_Some (getitem (e ag) s a)) as Hes.
  { apply (has_shape_getitem n m (Q ag) (e ag)); [done|done|by eexists]. }
  destruct (setitem_Some (e ag) s a fone Hes) as (row & Hrow & He1).
  set (e1 := <[s:=<[a:=fone]> row]> (e ag)) in *.
  assert (has_shape n m e1) as Hsh1 by (by eapply has_shape_setitem).
  assert (forall i j,
             getitem e1 i j
             = (fun _ => if bool_decide (i = s /\ j = a) then fone
                         else fzero) <$> getitem (e ag) i j) as Hget1.
  { intros i j. rewrite (getitem_setitem _ _ _ _ _ _ _ He1).
    rewrite all_entries_getitem in Hz. case_bool_decide as Hij.
    - destruct Hij as [-> ->]. by destruct Hes as [x ->].
    - destruct (getitem (e ag) i j) as [x|] eqn:Hx; [|done].
      cbn. f_equal. eauto. }
  set (c := fmul (step_size T ag s a) (td_error r (gamma ag) q' q)).
  assert (forall i j,
             getitem (iadd (Q ag) (scalar_mul c e1)) i j
             = if bool_decide (i = s /\ j = a) then Some (fadd q c)
               else getitem (Q ag) i j) as HgetQ.
  { intros i j. rewrite getitem_iadd, getitem_scalar_mul, Hget1.
    case_bool_decide as Hij.
    - destruct Hij as [-> ->]. rewrite Hq. destruct Hes as [x ->]. cbn.
      by rewrite fmul_1_r.
    - destruct (getitem (Q ag) i j) as [y|] eqn:Hy; [|done]. cbn.
      destruct (has_shape_getitem n m (Q ag) (e ag) i j) as [x ->];
        [done|done|by eexists|].
      cbn. by rewrite fmul_0_r, fadd_0_r. }
  exists e1, (MkAgent (iadd (Q ag) (scalar_mul c e1))
                      (imul e1 (fmul (gamma ag) (_lambda ag)))
                      (mode ag) (_lambda ag) (gamma ag)
                      (Some (drawn_action T ag s'))
                      (snd (td_draw_action T (Q ag) s' (policy ag)))
                      (snd (td_alpha T s a (learning_rate ag)))).
  rewrite trace_update_zero by done. cbn [Q SARSALambda.e].
  split; [done|]. split.
  { apply (array_eq_shape n m); [done|by apply has_shape_one_hot|].
    intros i j. by rewrite Hget1, getitem_one_hot. }
  split.
  { rewrite _update_eq, Hq. unfold bootstrap. cbn. rewrite Hq'. cbn.
    rewrite trace_update_zero, He1 by done. reflexivity. }
  split.
  { unfold sarsa_one_step. rewrite Hq. cbn. rewrite Hq'. cbn.
    destruct (setitem_Some (Q ag) s a
                (fadd q (fmul (step_size T ag s a)
                              (td_error r (gamma ag) q' q))))
      as (rowq & _ & HQs); [by eexists|].
    rewrite HQs. f_equal.
    apply (array_eq_shape n m).
    - exact (has_shape_setitem n m (Q ag) _ s a _ HQ HQs).
    - apply has_shape_iadd; [done|]. by apply has_shape_fmap.
    - intros i j. by rewrite (getitem_setitem _ _ _ _ _ _ _ HQs), HgetQ. }
  split.
  { by rewrite HgetQ, bool_decide_eq_true_2. }
  split.
  { intros i j Hij. by rewrite HgetQ, bool_decide_eq_false_2. }
  apply all_entries_getitem. intros i j x.
  rewrite getitem_imul, Hl, fmul_0_r.
  destruct (getitem e1 i j); [|done]. cbn. intros [= <-].
  apply fmul_0_r.
Qed.
End Facts.
End SARSAFacts.

(** * Episode boundaries and the bootstrap target *)

Module Boundary.
Import Core Array2 SARSALambda.

Section Facts.
Context {F : Type} `{Arith F} {Env Ag Cb Pol LR : Type}.
Variable M : MDP nat nat F Env.
Variable A : Agent nat nat F Ag.
Variable T : TD F Pol LR.

Abbreviation core := (core nat nat F Env Ag Cb).
Abbreviation sample := (sample nat nat F).

(** A step in an environment that never reports an absorbing state. *)
Lemma step_never_absorbing (c : core) (d : list sample) render :
  (forall a env, snd (fst (mdp_step M a env)) = false) ->
  exists smp c',
    _step M A c d render = (s_last smp, c', d ++ [smp])
    /\ _episode_steps c' = _episode_steps c + 1
    /\ s_absorbing smp = false
    /\ s_last smp = (mdp_horizon M <=? _episode_steps c + 1).
Proof.
  intros Hna.
  destruct (CoreFacts._step_eq M A c d render)
    as (smp & c' & E & _ & _ & Hab & _ & Hep & Hl & _).
  exists smp, c'. split; [done|]. split; [done|].
  rewrite Hna in Hab. split; [done|]. by rewrite Hl, Hab, Hep.
Qed.

(** One step, in terms of what the agent drew and what the environment
    answered. *)
Lemma _step_result (c : core) (d : list sample) render :
  let act := fst (draw_action A (_state c) (Core.agent c)) in
  let res := fst (mdp_step M act (mdp c)) in
  let steps := _episode_steps c + 1 in
  let lst := snd res || (mdp_horizon M <=? steps) in
  fst (fst (_step M A c d render)) = lst
  /\ snd (_step M A c d render)
     = d ++ [Sample (_state c) act (snd (fst res)) (fst (fst res))
                    (snd res) lst]
  /\ _episode_steps (snd (fst (_step M A c d render))) = steps.
Proof.
  unfold _step. destruct (draw_action A (_state c) (Core.agent c)) as [a ag].
  cbn [fst]. destruct (mdp_step M a (mdp c)) as [[[s' r] ab] env].
  cbn [fst snd _episode_steps].
  assert (negb ((_episode_steps c + 1 <? mdp_horizon M) && negb ab)
          = ab || (mdp_horizon M <=? _episode_steps c + 1)) as ->.
  { rewrite negb_andb, negb_involutive, orb_comm. f_equal.
    by rewrite Z.leb_antisym. }
  done.
Qed.

(** Fitting a transition inside the table: the new table, entry by entry,
    with the bootstrap value [q_next]. *)
Lemma fit_sample_entries (ag : agent F Pol LR) (n m s a : nat) (r : F)
    (s' : nat) (absorbing last : bool) (q q_next : F) :
  has_shape n m (Q ag) -> has_shape n m (e ag) ->
  getitem (Q ag) s a = Some q ->
  bootstrap T ag s' absorbing = Some q_next ->
  exists e1 ag',
    trace_update (mode ag) (e ag) s a = Some e1
    /\ fit_sample T ag (Sample s a r s' absorbing last) = Some ag'
    /\ forall i j,
         getitem (Q ag') i j
         = y ← getitem (Q ag) i j; x ← getitem e1 i j;
           Some (fadd y
                   (fmul (fmul (step_size T ag s a)
                               (fsub (fadd r (fmul (gamma ag) q_next)) q))
                         x)).
Proof.
  intros HQ He Hq Hb.
  destruct (SARSAFacts.trace_update_Some ag s a) as [e1 He1].
  { apply (Array2Facts.has_shape_getitem n m (Q ag) (e ag));
      [done|done|by eexists]. }
  unfold fit_sample. cbn [s_state s_action s_reward s_next_state s_absorbing].
  rewrite SARSAFacts._update_eq, Hq, Hb, He1. cbn.
  eexists e1, _. split; [done|]. split; [reflexivity|]. cbn.
  intros i j.
  rewrite Array2Facts.getitem_iadd, Array2Facts.getitem_scalar_mul.
  destruct (getitem (Q ag) i j); [|done]. cbn.
  by destruct (getitem e1 i j).
Qed.

(** C2: a step draws an action, steps the environment, adds one to
    [_episode_steps] and then records the transition with the environment's
    [absorbing] flag and with
    [last = absorbing or _episode_steps >= horizon], computed on the
    incremented counter, which is also what it returns; fitting a
    transition passes every field but [last] to [_update]; for a
    transition inside the table, whatever its [last] flag, every entry of
    the new table is the old entry plus
    [alpha * (reward + gamma * q_next - q_current)] times the trace entry,
    where [q_next] is [0.] when [absorbing] is true and the table entry at
    [next_state] and the drawn action when it is false; with horizon 3 and
    an environment that is never absorbing, [_move_episodes(1)] collects
    exactly three transitions, none absorbing, with [last] flags false,
    false, true. *)
Theorem last_flag_and_bootstrap (c : core) (d : list sample)
    (render : bool) (ag : agent F Pol LR) (n m s a : nat) (r : F) (s' : nat)
    (absorbing last : bool) (q q' : F) :
  (let act := fst (draw_action A (_state c) (Core.agent c)) in
   let res := fst (mdp_step M act (mdp c)) in
   let steps := _episode_steps c + 1 in
   let lst := snd res || (mdp_horizon M <=? steps) in
   fst (fst (_step M A c d render)) = lst
   /\ snd (_step M A c d render)
      = d ++ [Sample (_state c) act (snd (fst res)) (fst (fst res))
                     (snd res) lst]
   /\ _episode_steps (snd (fst (_step M A c d render))) = steps)
  /\ fit_sample T ag (Sample s a r s' absorbing last)
     = _update T ag s a r s' absorbing
  /\ _update T ag s a r s' absorbing
     = (q_current ← getitem (Q ag) s a;
        q_next ← (if absorbing then Some fzero
                  else getitem (Q ag) s' (drawn_action T ag s'));
        e1 ← trace_update (mode ag) (e ag) s a;
        Some (MkAgent
                (iadd (Q ag)
                      (scalar_mul
                         (fmul (step_size T ag s a)
                               (fsub (fadd r (fmul (gamma ag) q_next))
                                     q_current))
                         e1))
                (imul e1 (fmul (gamma ag) (_lambda ag)))
                (mode ag) (_lambda ag) (gamma ag)
                (Some (drawn_action T ag s'))
                (snd (td_draw_action T (Q ag) s' (policy ag)))
                (snd (td_alpha T s a (learning_rate ag)))))
  /\ (has_shape n m (Q ag) -> has_shape n m (e ag) ->
      getitem (Q ag) s a = Some q ->
      (absorbing = false ->
       getitem (Q ag) s' (drawn_action T ag s') = Some q') ->
      exists e1 ag',
        trace_update (mode ag) (e ag) s a = Some e1
        /\ fit_sample T ag (Sample s a r s' absorbing last) = Some ag'
        /\ forall i j,
             getitem (Q ag') i j
             = y ← getitem (Q ag) i j; x ← getitem e1 i j;
               Some (fadd y
                       (fmul (fmul (step_size T ag s a)
                                   (fsub (fadd r
                                            (fmul (gamma ag)
                                               (if absorbing then fzero
                                                else q')))
                                         q))
                             x)))
  /\ (mdp_horizon M = 3 ->
      (forall a env, snd (fst (mdp_step M a env)) = false) ->
      s_last <$> snd (_move_episodes M A 1 render c)
      = [false; false; true]
      /\ s_absorbing <$> snd (_move_episodes M A 1 render c)
         = [false; false; false]).
Proof.
  split; [apply _step_result|]. split; [done|]. split; [|split].
  - rewrite SARSAFacts._update_eq. unfold bootstrap, td_error.
    by destruct absorbing.
  - intros HQ He Hq Hq'.
    apply (fit_sample_entries ag n m s a r s' absorbing last q
             (if absorbing then fzero else q') HQ He Hq).
    unfold bootstrap. destruct absorbing; [done|]. by apply Hq'.
  - intros Hh Hna. unfold _move_episodes.
    change (Z.to_nat 1) with 1%nat. cbn [move_episodes_loop].
    unfold run_episode, episode_fuel. rewrite Hh.
    change (_episode_steps (zero_episode_steps c)) with 0.
    change (Z.to_nat (3 - 0)) with 3%nat.
    destruct (step_never_absorbing (zero_episode_steps c) [] render Hna)
      as (t1 & c1 & E1 & Hep1 & Ha1 & Hl1).
    destruct (step_never_absorbing c1 [t1] render Hna)
      as (t2 & c2 & E2 & Hep2 & Ha2 & Hl2).
    destruct (step_never_absorbing c2 [t1; t2] render Hna)
      as (t3 & c3 & E3 & Hep3 & Ha3 & Hl3).
    rewrite Hh in Hl1, Hl2, Hl3.
    rewrite Hep2, Hep1 in Hl3. rewrite Hep1 in Hl2.
    assert (s_last t1 = false) as Hf1 by (by rewrite Hl1).
    assert (s_last t2 = false) as Hf2 by (by rewrite Hl2).
    assert (s_last t3 = true) as Hf3 by (by rewrite Hl3).
    clear Hl1 Hl2 Hl3.
    rewrite CoreFacts.episode_loop_S, E1, Hf1. cbn [app].
    rewrite CoreFacts.episode_loop_S, E2, Hf2. cbn [app].
    rewrite CoreFacts.episode_loop_S, E3, Hf3. cbn.
    by rewrite Hf1, Hf2, Hf3, Ha1, Ha2, Ha3.
Qed.

(** For a SARSA(lambda) agent in the loop, [reset] leaves the table, the
    trace and every other attribute of the agent as they were. *)
Lemma reset_keeps_table
    (c : Core.core nat nat F Env (SARSALambda.agent F Pol LR) Cb) :
  Core.agent (reset M c) = Core.agent c
  /\ Q (Core.agent (reset M c)) = Q (Core.agent c)
  /\ e (Core.agent (reset M c)) = e (Core.agent c).
Proof.
  unfold reset. by destruct (mdp_reset M None (mdp c)) as [s0 env].
Qed.
End Facts.
End Boundary.

(** * The statements on the corridor and on the 2-by-2 learner *)

Module Runs.
Import Core Array2 SARSALambda Toy.

(** *** The integers as table entries *)

Lemma Z_one_hot_laws : OneHotLaws Z.
Proof. split; intros; cbn; lia. Qed.

Lemma Z_unit_laws : UnitLaws Z.
Proof. split; unfold in_unit; cbn; intros; nia. Qed.

Lemma update_spec_learner0 :
  has_shape 2 2 (Q learner0) /\ has_shape 2 2 (e learner0)
  /\ getitem (Q learner0) 0 1 = Some 0
  /\ exists ag',
       _update greedy0 learner0 0 1 5 1 false = Some ag'
       /\ getitem (Q ag') 0 1 = Some 5.
Proof.
  assert (has_shape 2 2 (Q learner0)) as HQ
    by (split; [reflexivity|repeat constructor]).
  assert (has_shape 2 2 (e learner0)) as He
    by (split; [reflexivity|repeat constructor]).
  split; [exact HQ|]. split; [exact He|]. split; [reflexivity|].
  destruct (SARSAFacts.update_spec greedy0 learner0 2 2 0 1 5 1 false 0
              HQ He eq_refl)
    as (q_next & e1 & ag' & Hup & Hqn & He1 & _ & HQ' & _).
  { intros _. by eexists. }
  exists ag'. split; [exact Hup|].
  rewrite HQ'. injection He1 as <-. injection Hqn as ->. reflexivity.
Defined.

Lemma last_flag_and_bootstrap_corridor :
  mdp_horizon (corridor 3 None) = 3
  /\ (forall a env, snd (fst (mdp_step (corridor 3 None) a env)) = false)
  /\ has_shape 2 2 (Q seasoned) /\ has_shape 2 2 (e seasoned)
  /\ getitem (Q seasoned) 0 1 = Some 0
  /\ getitem (Q seasoned) 1 (drawn_action greedy0 seasoned 1) = Some 7
  /\ s_last <$> snd (_move_episodes (corridor 3 None) walker 1 false
                                    (start 3 None))
     = [false; false; true]
  /\ exists ag',
       fit_sample greedy0 seasoned (Sample 0%nat 1%nat 5 1%nat false true)
       = Some ag'
       /\ getitem (Q ag') 0 1 = Some 12.
Proof.
  assert (has_shape 2 2 (Q seasoned)) as HQ
    by (split; [reflexivity|repeat constructor]).
  assert (has_shape 2 2 (e seasoned)) as He
    by (split; [reflexivity|repeat constructor]).
  split; [reflexivity|]. split; [intros a env; reflexivity|].
  split; [exact HQ|]. split; [exact He|]. split; [reflexivity|].
  split; [reflexivity|].
  destruct (Boundary.last_flag_and_bootstrap (corridor 3 None) walker
              greedy0 (start 3 None) [] false seasoned 2 2 0 1 5 1 false
              true 0 7) as (_ & _ & _ & Hfit & Hrun).
  split; [exact (proj1 (Hrun eq_refl (fun a env => eq_refl)))|].
  destruct (Hfit HQ He eq_refl (fun _ => eq_refl))
    as (e1 & ag' & He1 & Hag & Hent).
  exists ag'. split; [exact Hag|].
  rewrite Hent. injection He1 as <-. reflexivity.
Defined.

Lemma lambda_zero_is_one_step_learner0 :
  has_shape 2 2 (Q learner0) /\ has_shape 2 2 (e learner0)
  /\ _lambda learner0 = 0
  /\ all_entries (fun x => x = 0) (e learner0)
  /\ getitem (Q learner0) 0 1 = Some 0
  /\ getitem (Q learner0) 1 (drawn_action greedy0 learner0 1) = Some 0
  /\ exists ag',
       _update greedy0 learner0 0 1 5 1 false = Some ag'
       /\ Q ag' = [[0; 5]; [0; 0]]
       /\ e ag' = [[0; 0]; [0; 0]].
Proof.
  assert (has_shape 2 2 (Q learner0)) as HQ
    by (split; [reflexivity|repeat constructor]).
  assert (has_shape 2 2 (e learner0)) as He
    by (split; [reflexivity|repeat constructor]).
  assert (all_entries (fun x => x = 0) (e learner0)) as Hz
    by (repeat constructor).
  split; [exact HQ|]. split; [exact He|]. split; [reflexivity|].
  split; [exact Hz|]. split; [reflexivity|]. split; [reflexivity|].
  destruct (SARSAFacts.lambda_zero_is_one_step
              (OneHotLaws0 := Z_one_hot_laws)
              greedy0 learner0 2 2 0 1 5 1 0 0 HQ He eq_refl Hz eq_refl
              eq_refl)
    as (e1 & ag' & _ & _ & Hup & _).
  exists ag'. split; [exact Hup|].
  vm_compute in Hup. injection Hup as <-. by split.
Defined.

Lemma trace_entries_in_unit_tracer1 :
  in_episode greedy0 tracer1
  /\ trace_update (mode tracer1) (e tracer1) 1 0
     = Some [[0; 1]; [1; 0]]
  /\ all_entries in_unit [[0; 1]; [1; 0]].
Proof.
  assert (in_episode greedy0 tracer1) as Hin.
  { apply (in_episode_update greedy0 tracer0 0 1 5 1 false).
    - apply (in_episode_start greedy0
               (__init__ 2 2 1 tt tt 1 Replacing)).
      + reflexivity.
      + unfold in_unit. cbn. lia.
      + unfold in_unit. cbn. lia.
    - reflexivity. }
  split; [exact Hin|]. split; [reflexivity|].
  exact (proj1 (SARSAFacts.trace_entries_in_unit
                  (UnitLaws0 := Z_unit_laws)
                  greedy0 tracer1 1 0 [[0; 1]; [1; 0]] Hin eq_refl)).
Defined.

End Runs.

(** * Further properties of the interaction loop *)

Module CoreLoops.
Import Core.

Section Facts.
Context {St Act Rew Env Ag Cb : Type}.
Variable M : MDP St Act Rew Env.
Variable A : Agent St Act Rew Ag.

Abbreviation core := (core St Act Rew Env Ag Cb).
Abbreviation sample := (sample St Act Rew).
Abbreviation dataset := (list sample).

(** *** The dataset is only ever appended to *)

Lemma _step_app (c : core) (d : dataset) render :
  _step M A c d render
  = (fst (fst (_step M A c [] render)), snd (fst (_step M A c [] render)),
     d ++ snd (_step M A c [] render)).
Proof.
  unfold _step. destruct (draw_action A (_state c) (agent c)) as [a ag].
  by destruct (mdp_step M a (mdp c)) as [[[s' r] ab] env].
Qed.

Lemma episode_loop_app fuel (c : core) (d : dataset) render :
  episode_loop M A fuel c d render
  = (fun r : core * dataset => (fst r, d ++ snd r))
      <$> episode_loop M A fuel c [] render.
Proof.
  revert c d. induction fuel as [|fuel IH]; intros c d; [done|].
  rewrite !CoreFacts.episode_loop_S, (_step_app c d).
  destruct (_step M A c [] render) as [[l c1] d1]. cbn [fst snd].
  destruct l; [done|].
  rewrite (IH c1 (d ++ d1)), (IH c1 d1).
  destruct (episode_loop M A fuel c1 [] render) as [[c2 d2]|]; [|done].
  cbn. by rewrite app_assoc.
Qed.

Lemma run_episode_app (c : core) (d : dataset) render :
  run_episode M A c d render
  = (fst (run_episode M A c [] render),
     d ++ snd (run_episode M A c [] render)).
Proof.
  destruct (CoreFacts.run_episode_spec M A c [] render)
    as (c' & ep & E & -> & _).
  unfold run_episode. rewrite episode_loop_app, E. reflexivity.
Qed.

Lemma move_episodes_loop_app n (c : core) (d : dataset) render :
  move_episodes_loop M A n c d render
  = (fst (move_episodes_loop M A n c [] render),
     d ++ snd (move_episodes_loop M A n c [] render)).
Proof.
  revert c d. induction n as [|n IH]; intros c d.
  - cbn. by rewrite app_nil_r.
  - cbn [move_episodes_loop]. rewrite (run_episode_app c d).
    destruct (run_episode M A c [] render) as [c1 d1]. cbn [fst snd].
    rewrite (IH _ (d ++ d1)), (IH _ d1). cbn [fst snd].
    by rewrite app_assoc.
Qed.

Lemma move_samples_loop_app n (c : core) (d : dataset) render :
  move_samples_loop M A n c d render
  = (fst (move_samples_loop M A n c [] render),
     d ++ snd (move_samples_loop M A n c [] render)).
Proof.
  revert c d. induction n as [|n IH]; intros c d.
  - cbn. by rewrite app_nil_r.
  - cbn [move_samples_loop]. rewrite (_step_app c d).
    destruct (_step M A c [] render) as [[l c1] d1]. cbn [fst snd].
    rewrite (IH _ (d ++ d1)), (IH _ d1). cbn [fst snd].
    by rewrite app_assoc.
Qed.

(** *** Splitting a collection in two *)

Lemma move_samples_loop_add a b (c : core) (d : dataset) render :
  move_samples_loop M A (a + b) c d render
  = move_samples_loop M A b
      (fst (move_samples_loop M A a c d render))
      (snd (move_samples_loop M A a c d render)) render.
Proof.
  revert c d. induction a as [|a IH]; intros c d; [done|].
  cbn [Nat.add move_samples_loop].
  destruct (_step M A c d render) as [[l c1] d1]. apply IH.
Qed.

Lemma move_episodes_loop_add a b (c : core) (d : dataset) render :
  move_episodes_loop M A (a + b) c d render
  = move_episodes_loop M A b
      (fst (move_episodes_loop M A a c d render))
      (snd (move_episodes_loop M A a c d render)) render.
Proof.
  revert c d. induction a as [|a IH]; intros c d; [done|].
  cbn [Nat.add move_episodes_loop].
  destruct (run_episode M A c d render) as [c1 d1]. apply IH.
Qed.

Lemma zero_episode_steps_id (c : core) :
  _episode_steps c = 0 -> zero_episode_steps c = c.
Proof. destruct c. cbn. by intros ->. Qed.

(** Collecting [a + b] samples is collecting [a] samples and then [b]
    more; the dataset is the concatenation of the two. *)
Theorem move_samples_split (a b : Z) (c : core) (render : bool) :
  0 <= a -> 0 <= b ->
  _move_samples M A (a + b) render c
  = (fst (_move_samples M A b render
            (fst (_move_samples M A a render c))),
     snd (_move_samples M A a render c)
     ++ snd (_move_samples M A b render
               (fst (_move_samples M A a render c)))).
Proof.
  intros Ha Hb. unfold _move_samples.
  rewrite Z2Nat.inj_add, move_samples_loop_add by done.
  apply move_samples_loop_app.
Qed.

(** Collecting [a + b] episodes is collecting [a] episodes and then [b]
    more. *)
Theorem move_episodes_split (a b : Z) (c : core) (render : bool) :
  0 <= a -> 0 <= b ->
  _move_episodes M A (a + b) render c
  = (fst (_move_episodes M A b render
            (fst (_move_episodes M A a render c))),
     snd (_move_episodes M A a render c)
     ++ snd (_move_episodes M A b render
               (fst (_move_episodes M A a render c)))).
Proof.
  intros Ha Hb. unfold _move_episodes at 1.
  rewrite Z2Nat.inj_add, move_episodes_loop_add by done.
  change (move_episodes_loop M A (Z.to_nat a) (zero_episode_steps c) []
            render) with (_move_episodes M A a render c).
  set (r := _move_episodes M A a render c).
  assert (_move_episodes M A b render (fst r)
          = move_episodes_loop M A (Z.to_nat b) (fst r) [] render) as ->.
  { unfold _move_episodes at 1. rewrite zero_episode_steps_id; [done|].
    apply CoreFacts._move_episodes_counter. }
  apply move_episodes_loop_app.
Qed.

(** *** Invariant rules for the loops *)

Lemma episode_loop_inv (J : core -> dataset -> Prop) render :
  (forall c d, J c d ->
               J (snd (fst (_step M A c d render)))
                 (snd (_step M A c d render))) ->
  forall fuel c d r,
    J c d -> episode_loop M A fuel c d render = Some r -> J (fst r) (snd r).
Proof.
  intros Hstep fuel. induction fuel as [|fuel IH]; intros c d r HJ E;
    [done|].
  rewrite CoreFacts.episode_loop_S in E. specialize (Hstep c d HJ).
  destruct (_step M A c d render) as [[l c1] d1]. cbn [fst snd] in Hstep.
  destruct l; [by injection E as <-|]. eauto.
Qed.

Lemma run_episode_inv (J : core -> dataset -> Prop) render :
  (forall c d, J c d ->
               J (snd (fst (_step M A c d render)))
                 (snd (_step M A c d render))) ->
  forall c d,
    J c d ->
    J (fst (run_episode M A c d render)) (snd (run_episode M A c d render)).
Proof.
  intros Hstep c d HJ.
  destruct (CoreFacts.run_episode_spec M A c d render)
    as (c' & ep & E & -> & _).
  exact (episode_loop_inv J render Hstep _ _ _ _ HJ E).
Qed.

Lemma move_episodes_loop_inv (I : core -> dataset -> Prop) render :
  (forall c d,
      I c d ->
      I (zero_episode_steps
           (env_reset M None (fst (run_episode M A c d render))))
        (snd (run_episode M A c d render))) ->
  forall n c d,
    I c d ->
    I (fst (move_episodes_loop M A n c d render))
      (snd (move_episodes_loop M A n c d render)).
Proof.
  intros Hep n. induction n as [|n IH]; intros c d HI; [done|].
  cbn [move_episodes_loop]. specialize (Hep c d HI).
  destruct (run_episode M A c d render) as [c1 d1]. by apply IH.
Qed.

Lemma move_samples_loop_inv (I : core -> dataset -> Prop) render :
  (forall c d,
      I c d ->
      I (if fst (fst (_step M A c d render))
         then zero_episode_steps
                (env_reset M None (snd (fst (_step M A c d render))))
         else snd (fst (_step M A c d render)))
        (snd (_step M A c d render))) ->
  forall n c d,
    I c d ->
    I (fst (move_samples_loop M A n c d render))
      (snd (move_samples_loop M A n c d render)).
Proof.
  intros Hstep n. induction n as [|n IH]; intros c d HI; [done|].
  cbn [move_samples_loop]. specialize (Hstep c d HI).
  destruct (_step M A c d render) as [[l c1] d1]. by apply IH.
Qed.

Lemma for_xrange_inv {X : Type} (P : X -> Prop) (body : Z -> X -> X) :
  (forall i x, P x -> P (body i x)) ->
  forall n i0 x, P x -> P (for_xrange i0 n body x).
Proof.
  intros Hb n. induction n as [|n IH]; intros i0 x Hx; [done|].
  cbn [for_xrange]. auto.
Qed.

Lemma fold_left_inv {X Y : Type} (P : X -> Prop) (f : X -> Y -> X) :
  (forall x y, P x -> P (f x y)) ->
  forall l x, P x -> P (fold_left f l x).
Proof.
  intros Hf l. induction l as [|y l IH]; intros x Hx; [done|]. cbn. auto.
Qed.

(** *** Collection interacts only with the environment and [draw_action] *)

Lemma collected_from_refl (c : core) : collected_from c c.
Proof.
  split; [by apply CoreFacts.same_frame_refl|].
  exists []. by rewrite app_nil_r.
Qed.

Lemma collected_from_trans (c1 c2 c3 : core) :
  collected_from c1 c2 -> collected_from c2 c3 -> collected_from c1 c3.
Proof.
  intros [Hf (evs & E & Hc)] [Hf' (evs' & E' & Hc')]. split.
  - by eapply CoreFacts.same_frame_trans.
  - exists (evs ++ evs'). rewrite E', E, app_assoc. split; [done|].
    by apply Forall_app.
Qed.

Lemma collected_from_step (c : core) (d : dataset) render :
  collected_from c (snd (fst (_step M A c d render))).
Proof.
  unfold _step. destruct (draw_action A (_state c) (agent c)) as [a ag].
  destruct (mdp_step M a (mdp c)) as [[[s' r] ab] env]. cbn.
  split; [by repeat split|]. eexists. split; [reflexivity|].
  destruct render; by repeat constructor.
Qed.

Lemma collected_from_env_reset init (c : core) :
  collected_from c (env_reset M init c).
Proof.
  split; [apply CoreFacts.same_frame_env_reset|].
  unfold env_reset. destruct (mdp_reset M init (mdp c)) as [s env]. cbn.
  eexists. split; [reflexivity|]. by repeat constructor.
Qed.

Lemma collected_from_zero (c : core) :
  collected_from c (zero_episode_steps c).
Proof.
  split; [apply CoreFacts.same_frame_zero|]. exists []. cbn.
  by rewrite app_nil_r.
Qed.

Lemma collected_from_boundary (c : core) :
  collected_from c (zero_episode_steps (env_reset M None c)).
Proof.
  eapply collected_from_trans;
    [apply collected_from_env_reset|apply collected_from_zero].
Qed.

Lemma collected_from_move_samples how_many render (c : core) :
  collected_from c (fst (_move_samples M A how_many render c)).
Proof.
  unfold _move_samples.
  apply (move_samples_loop_inv (fun c' _ => collected_from c c'));
    [|apply collected_from_refl].
  intros c1 d1 H1. eapply collected_from_trans; [exact H1|].
  pose proof (collected_from_step c1 d1 render) as Hs.
  destruct (_step M A c1 d1 render) as [[l c2] d2]. cbn [fst snd] in *.
  destruct l; [|done].
  eapply collected_from_trans; [exact Hs|apply collected_from_boundary].
Qed.

Lemma collected_from_move_episodes how_many render (c : core) :
  collected_from c (fst (_move_episodes M A how_many render c)).
Proof.
  unfold _move_episodes.
  eapply collected_from_trans; [apply collected_from_zero|].
  apply (move_episodes_loop_inv
           (fun c' _ => collected_from (zero_episode_steps c) c'));
    [|apply collected_from_refl].
  intros c1 d1 H1. eapply collected_from_trans; [exact H1|].
  eapply collected_from_trans; [|apply collected_from_boundary].
  apply (run_episode_inv (fun c' _ => collected_from c1 c'));
    [|apply collected_from_refl].
  intros c2 d2 H2. eapply collected_from_trans; [exact H2|].
  apply collected_from_step.
Qed.

Lemma collected_from_evaluate_from render init (cd : core * dataset) :
  collected_from (fst cd) (fst (evaluate_from M A render init cd)).
Proof.
  destruct cd as [c d]. unfold evaluate_from. cbn [fst].
  pose proof (collected_from_move_episodes 1 render (env_reset M init c))
    as H1.
  destruct (_move_episodes M A 1 render (env_reset M init c)) as [c' d'].
  eapply collected_from_trans; [apply collected_from_env_reset|exact H1].
Qed.

Lemma collected_from_evaluate_sample render (cd : core * dataset) :
  collected_from (fst cd) (fst (evaluate_sample M A render cd)).
Proof.
  destruct cd as [c d]. unfold evaluate_sample. cbn [fst].
  pose proof (collected_from_move_samples 1 render c) as H1.
  by destruct (_move_samples M A 1 render c) as [c' d'].
Qed.

(** [evaluate] never fits and never calls a callback: whatever its
    arguments, the object it leaves has the callbacks, the callback state,
    [_total_steps] and the loop variable it found, and the interactions it
    added to the log are environment resets, action draws, environment
    steps and renderings only. *)
Theorem evaluate_only_collects (how_many : Z) (iterate_over : string)
    (initial_states : option (list St)) (render quiet : bool) (c : core) :
  collected_from c
    (final (evaluate M A how_many iterate_over initial_states render quiet
                     c)).
Proof.
  unfold evaluate. destruct initial_states as [inits|].
  - destruct (negb (String.eqb iterate_over "episodes"));
      [apply collected_from_refl|].
    pose proof (fold_left_inv
                  (fun cd : core * dataset => collected_from c (fst cd))
                  (fun cd s => evaluate_from M A render (Some s) cd)) as H.
    match goal with
    | |- context [fold_left ?f inits ?x] =>
        specialize (H ltac:(intros cd s Hcd;
                            eapply collected_from_trans; [exact Hcd|];
                            apply collected_from_evaluate_from)
                      inits x (collected_from_refl c));
        by destruct (fold_left f inits x)
    end.
  - destruct (String.eqb iterate_over "episodes").
    + pose proof (for_xrange_inv
                    (fun cd : core * dataset => collected_from c (fst cd))
                    (fun _ => evaluate_from M A render None)) as H.
      match goal with
      | |- context [for_xrange 0 ?n ?f ?x] =>
          specialize (H ltac:(intros i cd Hcd;
                              eapply collected_from_trans; [exact Hcd|];
                              apply collected_from_evaluate_from)
                        n 0 x (collected_from_refl c));
          by destruct (for_xrange 0 n f x)
      end.
    + pose proof (for_xrange_inv
                    (fun cd : core * dataset => collected_from c (fst cd))
                    (fun _ => evaluate_sample M A render)) as H.
      match goal with
      | |- context [for_xrange 0 ?n ?f ?x] =>
          specialize (H ltac:(intros i cd Hcd;
                              eapply collected_from_trans; [exact Hcd|];
                              apply collected_from_evaluate_sample)
                        n 0 x (collected_from_env_reset None c));
          by destruct (for_xrange 0 n f x)
      end.
Qed.

(** *** [evaluate] over samples *)

Lemma evaluate_sample_iter n i0 (c : core) (d : dataset) render :
  for_xrange i0 n (fun _ => evaluate_sample M A render) (c, d)
  = (fst (move_samples_loop M A n c [] render),
     d ++ snd (move_samples_loop M A n c [] render)).
Proof.
  revert i0 c d. induction n as [|n IH]; intros i0 c d.
  - cbn. by rewrite app_nil_r.
  - cbn [for_xrange move_samples_loop]. unfold evaluate_sample at 2.
    unfold _move_samples. change (Z.to_nat 1) with 1%nat.
    cbn [move_samples_loop].
    destruct (_step M A c [] render) as [[l c1] d1].
    rewrite IH, (move_samples_loop_app n _ d1). cbn [fst snd].
    by rewrite app_assoc.
Qed.

(** Without initial states and in samples mode, [evaluate] resets the
    environment (leaving [_episode_steps] as it is) and then collects
    exactly as one call of [_move_samples(how_many)] does, although it
    collects the samples one call at a time. *)
Theorem evaluate_samples_is_move_samples (how_many : Z)
    (render quiet : bool) (c : core) :
  evaluate M A how_many "samples"%string None render quiet c
  = Ok (fst (_move_samples M A how_many render (env_reset M None c)))
       (snd (_move_samples M A how_many render (env_reset M None c))).
Proof.
  unfold evaluate. cbn [String.eqb Ascii.eqb Bool.eqb].
  by rewrite evaluate_sample_iter.
Qed.

(** *** [evaluate] over episodes *)

Lemma evaluate_from_spec render init (c : core) (d : dataset) :
  exists c' ep,
    evaluate_from M A render init (c, d) = (c', d ++ ep)
    /\ whole_episode ep
    /\ (s_state <$> head ep) = Some (fst (mdp_reset M init (mdp c)))
    /\ _episode_steps c' = 0.
Proof.
  unfold evaluate_from.
  pose proof (CoreFacts._move_episodes_counter M A 1 (env_reset M init c)
                render) as Hc.
  destruct (CoreFacts._move_episodes_spec M A 1 (env_reset M init c) render)
    as (c' & eps & E & Hlen & Hw & _ & Hhd & _).
  rewrite E in Hc |- *. exists c'.
  destruct eps as [|ep [|ep' eps]]; try done.
  exists ep. cbn. rewrite app_nil_r. split; [done|].
  split; [by apply Forall_inv in Hw|]. split; [|done].
  rewrite (Hhd ep eq_refl). unfold env_reset.
  by destruct (mdp_reset M init (mdp c)).
Qed.

Lemma evaluate_from_fold render (inits : list (option St)) (c : core)
    (d : dataset) :
  exists c' eps,
    fold_left (fun cd o => evaluate_from M A render o cd) inits (c, d)
    = (c', d ++ concat eps)
    /\ length eps = length inits
    /\ Forall whole_episode eps
    /\ Forall2 (fun o ep =>
                  exists env,
                    (s_state <$> head ep)
                    = Some (fst (mdp_reset M o env))) inits eps.
Proof.
  revert c d. induction inits as [|o inits IH]; intros c d.
  - exists c, []. cbn. rewrite app_nil_r. by repeat split.
  - cbn [fold_left].
    destruct (evaluate_from_spec render o c d)
      as (c1 & ep & -> & Hw & Hhd & _).
    destruct (IH c1 (d ++ ep)) as (c' & eps & -> & Hlen & Hws & Hst).
    exists c', (ep :: eps). cbn. rewrite app_assoc.
    split; [done|]. split; [by rewrite Hlen|]. split; [by constructor|].
    constructor; [by eexists|done].
Qed.

Lemma fold_left_Some {X Y : Type} (f : X -> option Y -> X) (l : list Y) x :
  fold_left (fun acc y => f acc (Some y)) l x = fold_left f (Some <$> l) x.
Proof. revert x. induction l as [|y l IH]; intros x; [done|]. apply IH. Qed.

Lemma evaluate_from_iter render init n i0 (c : core) (d : dataset) :
  exists c' eps,
    for_xrange i0 n (fun _ => evaluate_from M A render init) (c, d)
    = (c', d ++ concat eps)
    /\ length eps = n
    /\ Forall whole_episode eps
    /\ _episode_steps c' = match n with O => _episode_steps c | S _ => 0 end.
Proof.
  revert i0 c d. induction n as [|n IH]; intros i0 c d.
  - exists c, []. cbn. by rewrite app_nil_r.
  - cbn [for_xrange].
    destruct (evaluate_from_spec render init c d)
      as (c1 & ep & -> & Hw & _ & Hc1).
    destruct (IH (i0 + 1) c1 (d ++ ep)) as (c' & eps & -> & Hlen & Hws & Hc).
    exists c', (ep :: eps). cbn. rewrite app_assoc.
    split; [done|]. split; [by rewrite Hlen|]. split; [by constructor|].
    rewrite Hc. by destruct n.
Qed.

(** With initial states and [iterate_over = 'episodes'], [evaluate] returns
    one complete episode per initial state, in order, whatever [how_many]
    is: the dataset is the concatenation of as many complete episodes as
    there are initial states, episode [i] starts in the state the
    environment returned when reset to initial state [i], and the dataset
    holds as many transitions with [last = true] as there are initial
    states. *)
Theorem evaluate_initial_states_episodes (how_many : Z)
    (inits : list St) (render quiet : bool) (c : core) :
  exists c' eps,
    evaluate M A how_many "episodes"%string (Some inits) render quiet c
    = Ok c' (concat eps)
    /\ length eps = length inits
    /\ Forall whole_episode eps
    /\ Forall2 (fun s ep =>
                  exists env,
                    (s_state <$> head ep)
                    = Some (fst (mdp_reset M (Some s) env))) inits eps
    /\ count_last (concat eps) = length inits.
Proof.
  unfold evaluate. cbn [String.eqb Ascii.eqb Bool.eqb negb].
  rewrite (fold_left_Some (fun cd o => evaluate_from M A render o cd)).
  destruct (evaluate_from_fold render (Some <$> inits) c [])
    as (c' & eps & -> & Hlen & Hw & Hst).
  rewrite length_fmap in Hlen. exists c', eps. cbn.
  rewrite CoreFacts.count_last_concat, Hlen by done.
  repeat split; try done. by apply Forall2_fmap_l in Hst.
Qed.

(** Without initial states and in episodes mode, [evaluate] returns the
    concatenation of [how_many] complete episodes (none when [how_many] is
    not positive) and leaves [_episode_steps] at 0 when it ran at least
    one, as it found it otherwise. *)
Theorem evaluate_episodes_count (how_many : Z) (render quiet : bool)
    (c : core) :
  exists c' eps,
    evaluate M A how_many "episodes"%string None render quiet c
    = Ok c' (concat eps)
    /\ length eps = Z.to_nat how_many
    /\ Forall whole_episode eps
    /\ count_last (concat eps) = Z.to_nat how_many
    /\ _episode_steps c'
       = (if 0 <? how_many then 0 else _episode_steps c).
Proof.
  unfold evaluate. cbn [String.eqb Ascii.eqb Bool.eqb negb].
  destruct (evaluate_from_iter render None (Z.to_nat how_many) 0 c [])
    as (c' & eps & -> & Hlen & Hw & Hc).
  exists c', eps. cbn [app]. rewrite CoreFacts.count_last_concat by done.
  split; [done|]. split; [done|]. split; [done|]. split; [done|].
  rewrite Hc. destruct (Z.ltb_spec 0 how_many) as [Hpos|Hneg].
  - destruct (Z.to_nat how_many) eqn:E; [lia|done].
  - by replace (Z.to_nat how_many) with 0%nat by lia.
Qed.

(** *** Flags and lengths of episodes *)

Lemma run_episode_flagged (c : core) (d : dataset) render :
  _episode_steps c = 0 ->
  exists c' ep,
    run_episode M A c d render = (c', d ++ ep)
    /\ whole_episode ep /\ flagged_episode M ep.
Proof.
  intros Hc.
  destruct (CoreFacts.run_episode_spec M A c d render)
    as (c' & ep & _ & E & Hw & _).
  exists c', ep. split; [done|]. split; [done|].
  set (J := fun (c1 : core) (d1 : dataset) =>
              exists ep1, d1 = d ++ ep1
                /\ _episode_steps c1 = Z.of_nat (length ep1)
                /\ flagged_episode M ep1).
  assert (forall c1 d1, J c1 d1 ->
                        J (snd (fst (_step M A c1 d1 render)))
                          (snd (_step M A c1 d1 render))) as Hstep.
  { intros c1 d1 (ep1 & -> & Hlen & Hfl).
    destruct (CoreFacts._step_eq M A c1 (d ++ ep1) render)
      as (smp & c2 & -> & _ & _ & Hab & _ & Hep & Hl & _). cbn [fst snd].
    exists (ep1 ++ [smp]). rewrite app_assoc. split; [done|].
    split; [rewrite length_app, Hep, Hlen; cbn; lia|].
    intros i x [Hx|[Hi Hx]]%lookup_app_Some; [by apply Hfl|].
    destruct (i - length ep1)%nat as [|k] eqn:Hk; [|done].
    injection Hx as <-. split; [|by eauto].
    rewrite Hl, Hep, Hlen. do 2 f_equal. lia. }
  assert (J c d) as Hinit.
  { exists []. rewrite app_nil_r. split; [done|]. split; [done|].
    by intros i x. }
  destruct (run_episode_inv J render Hstep c d Hinit) as (ep1 & E1 & _ & Hfl).
  rewrite E in E1. cbn [snd] in E1. by apply app_inv_head in E1 as ->.
Qed.

Lemma move_episodes_loop_flagged n (c : core) (d : dataset) render :
  _episode_steps c = 0 ->
  exists c' eps,
    move_episodes_loop M A n c d render = (c', d ++ concat eps)
    /\ length eps = n
    /\ Forall (fun ep => whole_episode ep /\ flagged_episode M ep) eps.
Proof.
  revert c d. induction n as [|n IH]; intros c d Hc.
  - exists c, []. cbn. by rewrite app_nil_r.
  - cbn [move_episodes_loop].
    destruct (run_episode_flagged c d render Hc)
      as (c1 & ep & -> & Hw & Hfl).
    destruct (IH (zero_episode_steps (env_reset M None c1)) (d ++ ep))
      as (c' & eps & -> & Hlen & Hall); [done|].
    exists c', (ep :: eps). cbn. rewrite app_assoc.
    split; [done|]. split; [by rewrite Hlen|]. by constructor.
Qed.

Lemma _move_episodes_flagged how_many (c : core) render :
  exists c' eps,
    _move_episodes M A how_many render c = (c', concat eps)
    /\ length eps = Z.to_nat how_many
    /\ Forall (fun ep => whole_episode ep /\ flagged_episode M ep) eps.
Proof.
  unfold _move_episodes.
  destruct (move_episodes_loop_flagged (Z.to_nat how_many)
              (zero_episode_steps c) [] render eq_refl)
    as (c' & eps & -> & Hlen & Hall).
  by exists c', eps.
Qed.

Lemma whole_flagged_length (ep : dataset) :
  whole_episode ep -> flagged_episode M ep ->
  1 <= Z.of_nat (length ep) <= Z.max 1 (mdp_horizon M).
Proof.
  intros (init & t & -> & _ & Hin) Hfl. rewrite length_app. cbn.
  split; [lia|].
  destruct (decide (init = [])) as [->|Hne]; [cbn; lia|].
  destruct (lookup_lt_is_Some_2 init (pred (length init))) as [x Hx].
  { destruct init; [done|cbn; lia]. }
  destruct (Hfl (pred (length init)) x) as [Hl _].
  { by apply lookup_app_l_Some. }
  rewrite Forall_lookup in Hin. rewrite (Hin _ _ Hx) in Hl.
  symmetry in Hl. apply orb_false_iff in Hl as [_ Hl].
  apply Z.leb_gt in Hl. destruct init; [done|]. cbn in Hl |- *. lia.
Qed.

Lemma whole_flagged_never_absorbing (ep : dataset) :
  (forall a env, snd (fst (mdp_step M a env)) = false) ->
  whole_episode ep -> flagged_episode M ep ->
  Z.of_nat (length ep) = Z.max 1 (mdp_horizon M).
Proof.
  intros Hna Hw Hfl. pose proof (whole_flagged_length ep Hw Hfl) as Hb.
  destruct Hw as (init & t & -> & Ht & _).
  destruct (Hfl (length init) t) as [Hl (a & env & Hab)].
  { by rewrite lookup_app_r, Nat.sub_diag by lia. }
  rewrite Ht, Hab, Hna in Hl. symmetry in Hl. cbn in Hl.
  apply Z.leb_le in Hl. rewrite length_app in Hb |- *. cbn in Hb |- *. lia.
Qed.

Lemma length_concat_const {X : Type} (ls : list (list X)) k :
  Forall (fun l => length l = k) ls ->
  length (concat ls) = (length ls * k)%nat.
Proof.
  induction 1 as [|l ls Hl _ IH]; [done|].
  rewrite concat_cons, length_app, IH, Hl. cbn. lia.
Qed.

(** The horizon bounds every episode: the dataset of [_move_episodes] is a
    concatenation of [how_many] complete episodes, each of at least one and
    at most [max(1, horizon)] transitions. *)
Theorem episodes_within_horizon (how_many : Z) (c : core) (render : bool) :
  exists eps : list dataset,
    snd (_move_episodes M A how_many render c) = concat eps
    /\ length eps = Z.to_nat how_many
    /\ Forall (fun ep => whole_episode ep
                         /\ 1 <= Z.of_nat (length ep)
                            <= Z.max 1 (mdp_horizon M)) eps.
Proof.
  destruct (_move_episodes_flagged how_many c render)
    as (c' & eps & -> & Hlen & Hall).
  exists eps. split; [done|]. split; [done|].
  eapply Forall_impl; [exact Hall|].
  intros ep [Hw Hfl]. split; [done|]. by apply whole_flagged_length.
Qed.

(** In an environment that never reports an absorbing state every episode
    of [_move_episodes] has exactly [max(1, horizon)] transitions, so
    [how_many >= 0] episodes make a dataset of [how_many * max(1, horizon)]
    transitions. *)
Theorem episodes_fill_horizon (how_many : Z) (c : core) (render : bool) :
  (forall a env, snd (fst (mdp_step M a env)) = false) ->
  0 <= how_many ->
  (exists eps : list dataset,
      snd (_move_episodes M A how_many render c) = concat eps
      /\ Forall (fun ep => Z.of_nat (length ep) = Z.max 1 (mdp_horizon M))
                eps)
  /\ Z.of_nat (length (snd (_move_episodes M A how_many render c)))
     = how_many * Z.max 1 (mdp_horizon M).
Proof.
  intros Hna Hn.
  destruct (_move_episodes_flagged how_many c render)
    as (c' & eps & -> & Hlen & Hall). cbn [snd].
  assert (Forall (fun ep : dataset =>
                    length ep = Z.to_nat (Z.max 1 (mdp_horizon M))) eps)
    as Hk.
  { eapply Forall_impl; [exact Hall|]. intros ep [Hw Hfl]. cbn.
    pose proof (whole_flagged_never_absorbing ep Hna Hw Hfl). lia. }
  split.
  - exists eps. split; [done|]. eapply Forall_impl; [exact Hk|].
    intros ep Hep. cbn in *. lia.
  - rewrite (length_concat_const _ _ Hk), Hlen. lia.
Qed.

(** A transition the environment reports as absorbing always closes its
    episode: in the datasets of both collection procedures, [absorbing]
    implies [last]. *)
Theorem absorbing_is_last (how_many : Z) (c : core) (render : bool) :
  Forall (fun x => s_absorbing x = true -> s_last x = true)
         (snd (_move_samples M A how_many render c))
  /\ Forall (fun x => s_absorbing x = true -> s_last x = true)
            (snd (_move_episodes M A how_many render c)).
Proof.
  set (P := fun x : sample => s_absorbing x = true -> s_last x = true).
  assert (forall (c : core) (d : dataset) render,
             Forall P d -> Forall P (snd (_step M A c d render))) as Hstep.
  { intros c1 d1 r1 Hd.
    destruct (CoreFacts._step_eq M A c1 d1 r1)
      as (smp & c2 & -> & _ & _ & _ & _ & _ & Hl & _). cbn [snd].
    apply Forall_app. split; [done|]. constructor; [|done].
    intros Hab. by rewrite Hl, Hab. }
  split.
  - apply (move_samples_loop_inv (fun _ d => Forall P d)); [|done].
    intros c1 d1 Hd. by apply Hstep.
  - apply (move_episodes_loop_inv (fun _ d => Forall P d)); [|done].
    intros c1 d1 Hd.
    apply (run_episode_inv (fun _ d => Forall P d)); [|done].
    intros c2 d2 Hd2. by apply Hstep.
Qed.

(** *** The step counter between calls *)

(** Between calls of [_move_samples] the step counter stays inside the
    current episode: if it is non-negative and below the horizon before the
    call, it is so after the call. *)
Theorem samples_counter_below_horizon (how_many : Z) (c : core)
    (render : bool) :
  0 <= _episode_steps c < mdp_horizon M ->
  0 <= _episode_steps (fst (_move_samples M A how_many render c))
    < mdp_horizon M.
Proof.
  intros Hc. unfold _move_samples.
  apply (move_samples_loop_inv
           (fun c1 _ => 0 <= _episode_steps c1 < mdp_horizon M)); [|done].
  intros c1 d1 H1.
  destruct (CoreFacts._step_eq M A c1 d1 render)
    as (smp & c2 & -> & _ & _ & _ & _ & Hep & Hl & _). cbn [fst snd].
  destruct (s_last smp) eqn:Hlast.
  - unfold env_reset. destruct (mdp_reset M None (mdp c2)). cbn. lia.
  - symmetry in Hl. apply orb_false_iff in Hl as [_ Hl].
    apply Z.leb_gt in Hl. lia.
Qed.

Lemma move_episodes_loop_last n (c : core) (d : dataset) render :
  move_episodes_loop M A (S n) c d render
  = (zero_episode_steps
       (env_reset M None
          (fst (run_episode M A
                  (fst (move_episodes_loop M A n c d render))
                  (snd (move_episodes_loop M A n c d render)) render))),
     snd (run_episode M A
            (fst (move_episodes_loop M A n c d render))
            (snd (move_episodes_loop M A n c d render)) render)).
Proof.
  replace (S n) with (n + 1)%nat by lia. rewrite move_episodes_loop_add.
  cbn [move_episodes_loop].
  by destruct (run_episode M A _ _ render) as [c1 d1].
Qed.

(** After collecting at least one episode, [_move_episodes] leaves the loop
    at the start of a fresh episode: its last interaction is a default
    environment reset, the current state is the state that reset returned,
    and [_episode_steps] is 0. *)
Theorem move_episodes_ends_fresh (how_many : Z) (c : core)
    (render : bool) :
  0 < how_many ->
  exists c1,
    fst (_move_episodes M A how_many render c)
    = zero_episode_steps (env_reset M None c1)
    /\ last (events (fst (_move_episodes M A how_many render c)))
       = Some (EvReset None)
    /\ _episode_steps (fst (_move_episodes M A how_many render c)) = 0.
Proof.
  intros Hn. unfold _move_episodes.
  destruct (Z.to_nat how_many) as [|n] eqn:E; [lia|].
  rewrite move_episodes_loop_last. cbn [fst].
  eexists. split; [reflexivity|]. split; [|done].
  unfold env_reset. destruct (mdp_reset M None _) as [s0 env]. cbn.
  by rewrite last_snoc.
Qed.

(** *** The chain of states in samples mode *)

(** In the dataset of [_move_samples] the first transition starts in the
    loop's current state, every transition that does not close an episode
    is followed by one that starts in its [next_state], and when the final
    transition does not close an episode the loop is left in its
    [next_state], where the next call will continue. *)
Theorem samples_chain (how_many : Z) (c : core) (render : bool) :
  adjacent (fun x y => s_last x = false -> s_next_state x = s_state y)
           (snd (_move_samples M A how_many render c))
  /\ (forall t, head (snd (_move_samples M A how_many render c)) = Some t ->
                s_state t = _state c)
  /\ (forall t, last (snd (_move_samples M A how_many render c)) = Some t ->
                s_last t = false ->
                s_next_state t
                = _state (fst (_move_samples M A how_many render c))).
Proof.
  set (link := fun x y : sample =>
                 s_last x = false -> s_next_state x = s_state y).
  set (I := fun (c1 : core) (d1 : dataset) =>
              adjacent link d1
              /\ (d1 = [] -> _state c1 = _state c)
              /\ (forall t, head d1 = Some t -> s_state t = _state c)
              /\ (forall t, last d1 = Some t -> s_last t = false ->
                            s_next_state t = _state c1)).
  assert (I (fst (_move_samples M A how_many render c))
            (snd (_move_samples M A how_many render c))) as (H1 & _ & H2 & H3);
    [|done].
  unfold _move_samples. apply (move_samples_loop_inv I).
  - intros c1 d1 (Hadj & Hnil & Hhd & Hlast).
    destruct (CoreFacts._step_eq M A c1 d1 render)
      as (smp & c2 & -> & Hst & _ & _ & Hnx & _). cbn [fst snd].
    split; [|split; [|split]].
    + apply CoreFacts.adjacent_app; [done|by intros [|i] ???|].
      intros x y Hx [= <-] Hxl. rewrite Hst. by apply Hlast.
    + by intros ?%app_nil_r_inv.
    + intros t. destruct d1 as [|x d1]; cbn.
      * intros [= <-]. rewrite Hst. by apply Hnil.
      * intros [= <-]. by apply Hhd.
    + intros t. rewrite last_snoc. intros [= <-] Hl. by rewrite Hl.
  - split; [by intros i ???|]. by repeat split.
Qed.

(** *** Iterations of [learn] *)

Lemma learn_samples_body_iteration how_many n_fit_steps render i
    (c : core) :
  iteration (learn_samples_body M A how_many n_fit_steps render i c)
  = Some i.
Proof.
  unfold learn_samples_body.
  destruct (CoreFacts._move_samples_spec M A how_many (set_iteration i c)
              render) as (c1 & d & -> & _ & _ & _ & _ & Hit).
  unfold call_callbacks. cbn.
  by destruct (run_callbacks _ _ _ _).
Qed.

Lemma learn_episodes_body_iteration how_many n_fit_steps render i
    (c : core) :
  iteration (learn_episodes_body M A how_many n_fit_steps render i c)
  = Some i.
Proof.
  unfold learn_episodes_body.
  destruct (CoreFacts._move_episodes_spec M A how_many (set_iteration i c)
              render) as (c1 & eps & -> & _ & _ & _ & _ & _ & _ & _ & Hit).
  unfold call_callbacks. cbn.
  by destruct (run_callbacks _ _ _ _).
Qed.

(** After [learn] has run [n_iterations >= 1] iterations, in either mode,
    the loop variable [self.iteration] holds [n_iterations - 1]. *)
Theorem learn_final_iteration (n_iterations how_many n_fit_steps : Z)
    (render quiet : bool) (c : core) :
  1 <= n_iterations ->
  iteration (final (learn M A n_iterations how_many n_fit_steps
                          "samples"%string render quiet c))
  = Some (n_iterations - 1)
  /\ iteration (final (learn M A n_iterations how_many n_fit_steps
                             "episodes"%string render quiet c))
     = Some (n_iterations - 1).
Proof.
  intros Hn. unfold learn. cbn [String.eqb Ascii.eqb Bool.eqb orb negb final].
  replace (Z.to_nat n_iterations) with (S (Z.to_nat (n_iterations - 1)))
    by lia.
  rewrite !CoreFacts.for_xrange_snoc.
  rewrite learn_samples_body_iteration, learn_episodes_body_iteration.
  split; f_equal; lia.
Qed.

(** [learn] over episodes returns normally and never counts: whatever the
    number of iterations, [_total_steps] and the registered callbacks are
    as before. *)
Theorem learn_episodes_keeps_total_steps
    (n_iterations how_many n_fit_steps : Z) (render quiet : bool)
    (c : core) :
  exists c',
    learn M A n_iterations how_many n_fit_steps "episodes"%string render
          quiet c = Ok c' tt
    /\ _total_steps c' = _total_steps c
    /\ callbacks c' = callbacks c.
Proof.
  unfold learn. cbn [String.eqb Ascii.eqb Bool.eqb orb negb].
  eexists. split; [reflexivity|].
  apply (for_xrange_inv
           (fun c1 : core => _total_steps c1 = _total_steps c
                             /\ callbacks c1 = callbacks c)); [|done].
  intros i c1 [Hts Hcb].
  destruct (CoreFacts.learn_episodes_body_spec M A how_many n_fit_steps
              render i c1) as (_ & _ & _ & -> & ->).
  done.
Qed.

(** *** One draw and one step per transition, one reset per episode *)

Lemma count_events_app p (l1 l2 : list (event St Act Rew)) :
  count_events p (l1 ++ l2)
  = (count_events p l1 + count_events p l2)%nat.
Proof. unfold count_events. by rewrite filter_app, length_app. Qed.

Lemma count_events_cons p ev (l : list (event St Act Rew)) :
  count_events p (ev :: l)
  = ((if p ev then 1 else 0) + count_events p l)%nat.
Proof.
  unfold count_events. rewrite filter_cons.
  destruct (p ev); by case_decide.
Qed.

Lemma count_events_nil p : count_events p (@nil (event St Act Rew)) = 0%nat.
Proof. done. Qed.

Lemma tally_refl (c : core) render : tally c c 0 0 render.
Proof. exists []. rewrite app_nil_r. by destruct render. Qed.

Lemma tally_step (c0 c : core) (d : dataset) k r render :
  tally c0 c k r render ->
  tally c0 (snd (fst (_step M A c d render))) (S k) r render.
Proof.
  intros (evs & E & Hd & Hs & Hr & Hrn). unfold _step.
  destruct (draw_action A (_state c) (agent c)) as [a ag].
  destruct (mdp_step M a (mdp c)) as [[[s' rw] ab] env]. cbn [fst snd events].
  eexists. rewrite E, <- app_assoc. split; [reflexivity|].
  rewrite !count_events_app, Hd, Hs, Hr, Hrn.
  destruct render; rewrite ?count_events_cons, ?count_events_nil; cbn;
    repeat split; lia.
Qed.

Lemma tally_boundary (c0 c : core) k r render :
  tally c0 c k r render ->
  tally c0 (zero_episode_steps (env_reset M None c)) k (S r) render.
Proof.
  intros (evs & E & Hd & Hs & Hr & Hrn). unfold env_reset.
  destruct (mdp_reset M None (mdp c)) as [s env]. cbn [zero_episode_steps events].
  eexists. rewrite E, <- app_assoc. split; [reflexivity|].
  rewrite !count_events_app, Hd, Hs, Hr, Hrn.
  destruct render; rewrite ?count_events_cons, ?count_events_nil; cbn;
    repeat split; lia.
Qed.

(** Both collection procedures draw exactly one action and step the
    environment exactly once per collected transition, reset the
    environment exactly once per transition with [last = true], render
    once per transition when asked to and never otherwise. *)
Theorem interactions_match_dataset (how_many : Z) (c : core)
    (render : bool) :
  tally c (fst (_move_samples M A how_many render c))
        (length (snd (_move_samples M A how_many render c)))
        (count_last (snd (_move_samples M A how_many render c))) render
  /\ tally c (fst (_move_episodes M A how_many render c))
           (length (snd (_move_episodes M A how_many render c)))
           (count_last (snd (_move_episodes M A how_many render c)))
           render.
Proof.
  split.
  - unfold _move_samples.
    apply (move_samples_loop_inv
             (fun c1 d1 => tally c c1 (length d1) (count_last d1) render));
      [|apply tally_refl].
    intros c1 d1 H1. pose proof (tally_step c c1 d1 _ _ render H1) as H2.
    destruct (CoreFacts._step_eq M A c1 d1 render) as (smp & c2 & E & _).
    rewrite E in H2 |- *. cbn [fst snd] in *.
    rewrite length_app, CoreFacts.count_last_app, Nat.add_1_r.
    unfold count_last at 2. destruct (s_last smp) eqn:Hl.
    + rewrite filter_cons_True by done. cbn.
      rewrite Nat.add_1_r. by apply tally_boundary.
    + rewrite filter_cons_False by (by rewrite Hl). cbn.
      by rewrite Nat.add_0_r.
  - unfold _move_episodes.
    assert (tally c (zero_episode_steps c) 0 0 render) as H0.
    { exists []. cbn. rewrite app_nil_r. by destruct render. }
    refine (move_episodes_loop_inv
              (fun c1 d1 => tally c c1 (length d1) (count_last d1) render)
              render _ (Z.to_nat how_many) (zero_episode_steps c) [] H0).
    intros c1 d1 H1.
    assert (forall (c3 : core) (d3 : dataset),
               tally c c3 (length d3) (count_last d1) render ->
               tally c (snd (fst (_step M A c3 d3 render)))
                     (length (snd (_step M A c3 d3 render)))
                     (count_last d1) render) as Hstep.
    { intros c3 d3 H3.
      pose proof (tally_step c c3 d3 _ _ render H3) as H4.
      destruct (CoreFacts._step_eq M A c3 d3 render) as (smp & c4 & E4 & _).
      rewrite E4 in H4 |- *. cbn [fst snd] in *.
      by rewrite length_app, Nat.add_1_r. }
    pose proof (run_episode_inv
                  (fun c2 d2 =>
                     tally c c2 (length d2) (count_last d1) render)
                  render Hstep c1 d1 H1) as Hrun.
    destruct (CoreFacts.run_episode_spec M A c1 d1 render)
      as (c2 & ep & _ & E & Hw & _).
    rewrite E in Hrun |- *. cbn [fst snd] in *.
    rewrite CoreFacts.count_last_app, (CoreFacts.count_last_whole ep Hw),
      Nat.add_1_r.
    by apply tally_boundary.
Qed.

(** *** Empty requests *)

(** A request for no data, [how_many <= 0]: [_move_samples] returns an
    empty dataset and leaves the object as it is; [_move_episodes] returns
    an empty dataset but still sets [_episode_steps] to 0; [evaluate] over
    episodes returns an empty dataset and leaves the object as it is, but
    over samples it still resets the environment; and with an empty array
    of initial states [evaluate] does nothing. *)
Theorem nothing_requested (how_many : Z) (render quiet : bool) (c : core) :
  how_many <= 0 ->
  _move_samples M A how_many render c = (c, [])
  /\ _move_episodes M A how_many render c = (zero_episode_steps c, [])
  /\ evaluate M A how_many "episodes"%string None render quiet c = Ok c []
  /\ evaluate M A how_many "samples"%string None render quiet c
     = Ok (env_reset M None c) []
  /\ evaluate M A how_many "episodes"%string (Some []) render quiet c
     = Ok c [].
Proof.
  intros Hn. unfold _move_samples, _move_episodes, evaluate.
  replace (Z.to_nat how_many) with 0%nat by lia. by repeat split.
Qed.

(** [learn] with [n_iterations <= 0] returns normally and leaves the
    object as it is, in both modes: no data is collected, the agent is not
    fitted and no callback runs. *)
Lemma no_iterations (n_iterations how_many n_fit_steps : Z)
    (render quiet : bool) (c : core) :
  n_iterations <= 0 ->
  learn M A n_iterations how_many n_fit_steps "samples"%string render quiet c
  = Ok c tt
  /\ learn M A n_iterations how_many n_fit_steps "episodes"%string render
           quiet c
     = Ok c tt.
Proof.
  intros Hn. unfold learn.
  replace (Z.to_nat n_iterations) with 0%nat by lia. by split.
Qed.
End Facts.
End CoreLoops.

(** * Further properties of SARSA(lambda) *)

Module SARSARuns.
Import Array2 Array2Facts SARSALambda.

Section Facts.
Context {F : Type} `{Arith F} {Pol LR : Type}.
Variable T : TD F Pol LR.

Abbreviation agent := (agent F Pol LR).

(** *** Shapes never change *)

Lemma trace_update_shape n m mode (t t' : array F) s a :
  has_shape n m t -> trace_update mode t s a = Some t' -> has_shape n m t'.
Proof.
  intros Ht. unfold trace_update. destruct mode.
  - by apply has_shape_setitem.
  - destruct (getitem t s a) as [x|]; [|done]. cbn.
    by apply has_shape_setitem.
Qed.

Lemma _update_keeps (ag ag' : agent) n m s a r s' absorbing :
  has_shape n m (Q ag) -> has_shape n m (e ag) ->
  _update T ag s a r s' absorbing = Some ag' ->
  has_shape n m (Q ag') /\ has_shape n m (e ag')
  /\ mode ag' = mode ag /\ _lambda ag' = _lambda ag
  /\ gamma ag' = gamma ag.
Proof.
  intros HQ He. rewrite SARSAFacts._update_eq.
  destruct (getitem (Q ag) s a) as [q|]; [|done]. cbn.
  destruct (bootstrap T ag s' absorbing) as [q'|]; [|done]. cbn.
  destruct (trace_update (mode ag) (e ag) s a) as [e1|] eqn:He1; [|done].
  cbn. intros [= <-]. cbn.
  pose proof (trace_update_shape n m _ _ _ _ _ He He1) as Hsh.
  split; [|split; [|done]].
  - apply has_shape_iadd; [done|]. by apply has_shape_fmap.
  - by apply has_shape_fmap.
Qed.

Lemma run_calls_keeps (cs : list call) (ag ag' : agent) n m :
  has_shape n m (Q ag) -> has_shape n m (e ag) ->
  run_calls T cs ag = Some ag' ->
  has_shape n m (Q ag') /\ has_shape n m (e ag')
  /\ mode ag' = mode ag /\ _lambda ag' = _lambda ag
  /\ gamma ag' = gamma ag.
Proof.
  revert ag. induction cs as [|[|s a r s' ab] cs IH]; intros ag HQ He.
  - by intros [= <-].
  - cbn [run_calls]. intros Hrun.
    apply (IH (episode_start T ag)); [done| |done]. cbn.
    by apply has_shape_fmap.
  - cbn [run_calls].
    destruct (_update T ag s a r s' ab) as [ag1|] eqn:Hup; [|done]. cbn.
    destruct (_update_keeps _ _ n m _ _ _ _ _ HQ He Hup)
      as (HQ1 & He1 & Hm1 & Hl1 & Hg1).
    intros Hrun.
    destruct (IH ag1 HQ1 He1 Hrun) as (HQ' & He' & Hm' & Hl' & Hg').
    split; [done|]. split; [done|]. split; [congruence|].
    split; congruence.
Qed.

(** Whatever calls a freshly constructed agent goes through, its table and
    its trace keep the shape [(n_states, n_actions)] they were built with,
    and the trace mode, [lambda] and [gamma] stay as given to the
    constructor. *)
Theorem constructed_shape_is_kept (cs : list call) (n_states n_actions : nat)
    (mdp_gamma : F) (pol : Pol) (lr : LR) (lambda_coeff : F)
    (trace : trace_mode) (ag : agent) :
  run_calls T cs
    (__init__ n_states n_actions mdp_gamma pol lr lambda_coeff trace)
  = Some ag ->
  has_shape n_states n_actions (Q ag)
  /\ has_shape n_states n_actions (e ag)
  /\ mode ag = trace /\ _lambda ag = lambda_coeff /\ gamma ag = mdp_gamma.
Proof.
  intros Hrun.
  by apply (run_calls_keeps cs _ ag n_states n_actions) in Hrun;
    [|apply has_shape_zeros..].
Qed.

(** *** The start of an episode *)

(** [episode_start] leaves the table as it is and makes the trace the
    all-zero array of its shape. *)
Theorem episode_start_zeroes_trace (ag : agent) (n m : nat) :
  has_shape n m (e ag) ->
  e (episode_start T ag) = zeros n m /\ Q (episode_start T ag) = Q ag.
Proof.
  intros [<- Hm]. split; [|done]. cbn. unfold trace_reset, zeros.
  induction Hm as [|row t Hrow _ IH]; [done|].
  cbn. rewrite IH. f_equal. rewrite <- Hrow. clear.
  induction row as [|x row IH]; [done|]. cbn. by rewrite IH.
Qed.

(** *** What an update leaves alone *)

(** An update changes the table only where the trace is not zero: an entry
    other than [(state, action)] whose trace entry is [0.] before the call
    keeps its value.  (Laws used: [x * 0 = 0] and [x + 0 = x].) *)
Theorem update_spares_ineligible `{!OneHotLaws F} (ag ag' : agent)
    (s a : nat) (r : F) (s' : nat) (absorbing : bool) (i j : nat) :
  _update T ag s a r s' absorbing = Some ag' ->
  ~ (i = s /\ j = a) ->
  getitem (e ag) i j = Some fzero ->
  getitem (Q ag') i j = getitem (Q ag) i j.
Proof.
  rewrite SARSAFacts._update_eq. intros Hup Hij Hz.
  destruct (getitem (Q ag) s a) as [q|]; [|done]. cbn in Hup.
  destruct (bootstrap T ag s' absorbing) as [q'|]; [|done]. cbn in Hup.
  destruct (trace_update (mode ag) (e ag) s a) as [e1|] eqn:He1; [|done].
  cbn in Hup. injection Hup as <-. cbn.
  assert (getitem e1 i j = Some fzero) as Hz1.
  { unfold trace_update in He1. destruct (mode ag).
    - rewrite (getitem_setitem _ _ _ _ _ _ _ He1).
      by rewrite bool_decide_eq_false_2.
    - destruct (getitem (e ag) s a) as [x|]; [|done]. cbn in He1.
      rewrite (getitem_setitem _ _ _ _ _ _ _ He1).
      by rewrite bool_decide_eq_false_2. }
  rewrite getitem_iadd, getitem_scalar_mul, Hz1.
  destruct (getitem (Q ag) i j) as [y|]; [|done]. cbn.
  by rewrite fmul_0_r, fadd_0_r.
Qed.

(** For an absorbing transition the new table and the new trace do not
    depend on [next_state]. *)
Theorem absorbing_ignores_next_state (ag : agent) (s a : nat) (r : F)
    (s1 s2 : nat) :
  (Q <$> _update T ag s a r s1 true) = (Q <$> _update T ag s a r s2 true)
  /\ (e <$> _update T ag s a r s1 true)
     = (e <$> _update T ag s a r s2 true).
Proof.
  rewrite !SARSAFacts._update_eq. unfold bootstrap. cbn.
  destruct (getitem (Q ag) s a) as [q|]; [|done]. cbn.
  by destruct (trace_update (mode ag) (e ag) s a) as [e1|].
Qed.

(** When the TD error of a transition is zero the update leaves the whole
    table as it is.  (Laws used: [x * 0 = 0], [0 * x = 0] and
    [x + 0 = x].) *)
Theorem zero_td_error_keeps_table `{!OneHotLaws F} (ag ag' : agent)
    (n m s a : nat) (r : F) (s' : nat) (absorbing : bool) (q q_next : F) :
  (forall x : F, fmul fzero x = fzero) ->
  has_shape n m (Q ag) -> has_shape n m (e ag) ->
  getitem (Q ag) s a = Some q ->
  bootstrap T ag s' absorbing = Some q_next ->
  td_error r (gamma ag) q_next q = fzero ->
  _update T ag s a r s' absorbing = Some ag' ->
  Q ag' = Q ag.
Proof.
  intros H0l HQ He Hq Hb Hd. rewrite SARSAFacts._update_eq, Hq, Hb. cbn.
  destruct (trace_update (mode ag) (e ag) s a) as [e1|] eqn:He1; [|done].
  cbn. intros [= <-]. cbn. rewrite Hd, fmul_0_r.
  pose proof (trace_update_shape n m _ _ _ _ _ He He1) as Hsh.
  apply (array_eq_shape n m);
    [apply has_shape_iadd; [done|by apply has_shape_fmap]|done|].
  intros i j. rewrite getitem_iadd, getitem_scalar_mul.
  destruct (getitem (Q ag) i j) as [y|] eqn:Hy; [|done]. cbn.
  destruct (has_shape_getitem n m (Q ag) e1 i j) as [x ->];
    [done|done|by eexists|].
  cbn. by rewrite H0l, fadd_0_r.
Qed.
End Facts.
End SARSARuns.

(** * The further statements on the corridor and on the 2-by-2 learner *)

Module MoreRuns.
Import Core Array2 SARSALambda Toy.

Lemma learn_rejects_foo :
  "foo"%string <> "samples"%string /\ "foo"%string <> "episodes"%string
  /\ learn (corridor 3 None) walker 1 1 1 "foo" false false (start 3 None)
     = Raise AssertionError (start 3 None).
Proof.
  split; [discriminate|]. split; [discriminate|].
  apply CoreFacts.learn_rejects; discriminate.
Defined.

Lemma evaluate_rejects_samples :
  "samples"%string <> "episodes"%string
  /\ evaluate (corridor 3 None) walker 1 "samples" (Some [4%nat]) false
              false (start 3 None)
     = Raise AssertionError (start 3 None).
Proof.
  split; [discriminate|]. apply CoreFacts.evaluate_rejects; discriminate.
Defined.

Lemma evaluate_default_branch_foo :
  "foo"%string <> "episodes"%string
  /\ evaluate (corridor 3 None) walker 2 "foo" None false false
              (start 3 None)
     = evaluate (corridor 3 None) walker 2 "samples" None false false
                (start 3 None).
Proof.
  split; [discriminate|].
  apply CoreFacts.evaluate_default_branch; discriminate.
Defined.

Lemma move_samples_split_corridor :
  0 <= 2 /\ 0 <= 3
  /\ snd (_move_samples (corridor 3 None) walker (2 + 3) false
                        (start 3 None))
     = snd (_move_samples (corridor 3 None) walker 2 false (start 3 None))
       ++ snd (_move_samples (corridor 3 None) walker 3 false
                 (fst (_move_samples (corridor 3 None) walker 2 false
                         (start 3 None)))).
Proof.
  split; [lia|]. split; [lia|].
  exact (f_equal snd
           (CoreLoops.move_samples_split (corridor 3 None) walker 2 3
              (start 3 None) false ltac:(lia) ltac:(lia))).
Defined.

Lemma move_episodes_split_corridor :
  0 <= 1 /\ 0 <= 2
  /\ snd (_move_episodes (corridor 3 (Some 2%nat)) walker (1 + 2) false
                         (start 3 (Some 2%nat)))
     = snd (_move_episodes (corridor 3 (Some 2%nat)) walker 1 false
              (start 3 (Some 2%nat)))
       ++ snd (_move_episodes (corridor 3 (Some 2%nat)) walker 2 false
                 (fst (_move_episodes (corridor 3 (Some 2%nat)) walker 1
                         false (start 3 (Some 2%nat))))).
Proof.
  split; [lia|]. split; [lia|].
  exact (f_equal snd
           (CoreLoops.move_episodes_split (corridor 3 (Some 2%nat)) walker
              1 2 (start 3 (Some 2%nat)) false ltac:(lia) ltac:(lia))).
Defined.

Lemma episodes_fill_horizon_corridor :
  (forall a env, snd (fst (mdp_step (corridor 3 None) a env)) = false)
  /\ 0 <= 2
  /\ Z.of_nat (length (snd (_move_episodes (corridor 3 None) walker 2 false
                                           (start 3 None))))
     = 2 * Z.max 1 (mdp_horizon (corridor 3 None)).
Proof.
  split; [intros a env; reflexivity|]. split; [lia|].
  exact (proj2 (CoreLoops.episodes_fill_horizon (corridor 3 None) walker 2
                  (start 3 None) false (fun a env => eq_refl)
                  ltac:(lia))).
Defined.

Lemma samples_counter_below_horizon_corridor :
  0 <= _episode_steps (two_steps_in 5) < mdp_horizon (corridor 5 None)
  /\ 0 <= _episode_steps
            (fst (_move_samples (corridor 5 None) walker 7 false
                                (two_steps_in 5)))
       < mdp_horizon (corridor 5 None).
Proof.
  assert (0 <= _episode_steps (two_steps_in 5)
          < mdp_horizon (corridor 5 None)) as Hc
    by (change (0 <= 2 < 5); lia).
  split; [exact Hc|].
  exact (CoreLoops.samples_counter_below_horizon (corridor 5 None) walker
           7 (two_steps_in 5) false Hc).
Defined.

Lemma move_episodes_ends_fresh_corridor :
  0 < 2
  /\ last (events (fst (_move_episodes (corridor 3 None) walker 2 false
                                       (two_steps_in 3))))
     = Some (EvReset None)
  /\ _episode_steps (fst (_move_episodes (corridor 3 None) walker 2 false
                                         (two_steps_in 3))) = 0.
Proof.
  split; [lia|].
  destruct (CoreLoops.move_episodes_ends_fresh (corridor 3 None) walker 2
              (two_steps_in 3) false ltac:(lia)) as (c1 & _ & Hl & Hc).
  by split.
Defined.

Lemma learn_final_iteration_corridor :
  1 <= 3
  /\ iteration (final (learn (corridor 3 None) walker 3 2 1 "samples"
                             false false (start 3 None)))
     = Some (3 - 1).
Proof.
  split; [lia|].
  exact (proj1 (CoreLoops.learn_final_iteration (corridor 3 None) walker
                  3 2 1 false false (start 3 None) ltac:(lia))).
Defined.

Lemma nothing_requested_corridor :
  -1 <= 0
  /\ _move_episodes (corridor 5 None) walker (-1) false (two_steps_in 5)
     = (zero_episode_steps (two_steps_in 5), [])
  /\ evaluate (corridor 5 None) walker (-1) "samples" None false false
              (two_steps_in 5)
     = Ok (env_reset (corridor 5 None) None (two_steps_in 5)) [].
Proof.
  split; [lia|].
  destruct (CoreLoops.nothing_requested (corridor 5 None) walker (-1)
              false false (two_steps_in 5) ltac:(lia))
    as (_ & He & _ & Hs & _).
  by split.
Defined.

Lemma constructed_shape_is_kept_tracer1 :
  run_calls greedy0 [EpisodeStart; Update 0 1 5 1 false]
    (__init__ 2 2 1 tt tt 1 Replacing) = Some tracer1
  /\ has_shape 2 2 (Q tracer1) /\ has_shape 2 2 (e tracer1).
Proof.
  split; [reflexivity|].
  destruct (SARSARuns.constructed_shape_is_kept greedy0
              [EpisodeStart; Update 0 1 5 1 false] 2 2 1 tt tt 1 Replacing
              tracer1 eq_refl) as (HQ & He & _).
  by split.
Defined.

Lemma episode_start_zeroes_trace_tracer1 :
  has_shape 2 2 (e tracer1)
  /\ e tracer1 = [[0; 1]; [0; 0]]
  /\ e (episode_start greedy0 tracer1) = zeros 2 2.
Proof.
  assert (has_shape 2 2 (e tracer1)) as He
    by (split; [reflexivity|repeat constructor]).
  split; [exact He|]. split; [reflexivity|].
  exact (proj1 (SARSARuns.episode_start_zeroes_trace greedy0 tracer1 2 2
                  He)).
Defined.

Lemma update_spares_ineligible_tracer0 :
  _update greedy0 tracer0 0 1 5 1 false = Some tracer1
  /\ ~ (1%nat = 0%nat /\ 0%nat = 1%nat)
  /\ getitem (e tracer0) 1 0 = Some 0
  /\ getitem (Q tracer1) 1 0 = getitem (Q tracer0) 1 0.
Proof.
  split; [reflexivity|]. split; [lia|]. split; [reflexivity|].
  apply (SARSARuns.update_spares_ineligible
           (OneHotLaws0 := Runs.Z_one_hot_laws)
           greedy0 tracer0 tracer1 0 1 5 1 false 1 0);
    [reflexivity|lia|reflexivity].
Defined.

Lemma zero_td_error_keeps_table_learner0 :
  (forall x : Z, 0 * x = 0)
  /\ getitem (Q learner0) 0 1 = Some 0
  /\ bootstrap greedy0 learner0 1 false = Some 0
  /\ td_error 0 (gamma learner0) 0 0 = 0
  /\ Q (default learner0 (_update greedy0 learner0 0 1 0 1 false))
     = Q learner0.
Proof.
  assert (has_shape 2 2 (Q learner0)) as HQ
    by (split; [reflexivity|repeat constructor]).
  assert (has_shape 2 2 (e learner0)) as He
    by (split; [reflexivity|repeat constructor]).
  split; [intros x; lia|]. split; [reflexivity|]. split; [reflexivity|].
  split; [reflexivity|].
  apply (SARSARuns.zero_td_error_keeps_table
           (OneHotLaws0 := Runs.Z_one_hot_laws)
           greedy0 learner0 _ 2 2 0 1 0 1 false 0 0);
    [intros x; cbn; lia|exact HQ|exact He|reflexivity|reflexivity
    |reflexivity|reflexivity].
Defined.

End MoreRuns.
